(** * BookSynopsisGenerator: a bigram Markov-chain synopsis generator

    Shallow embedding of [book_synopsis_generator.py] and the properties of
    its trainer ([load_training_data]), sampler ([generate_synopsis]) and
    post-processor ([_post_process_text]).

    Modelling conventions.
    - A Python [str] is a [string]; a character is an [ascii].  The character
      tables ([str.isspace], [str.isupper], [str.upper], the regex classes
      [\s] and [[A-Z]]) are Python's on the code points 0..127; a code point
      above 127 is taken as a caseless character that is not white space.
    - A Python [int] is a [Z].
    - The [defaultdict(list)] is an association list in insertion order with
      unique keys, so that [keys()] and [items()] enumerate as Python does.
    - [random.choice] reads a stream of raw draws [nat -> nat]; every run of
      the program is the run on some stream.
    - A method is a computation in the monad [M]: it reads and writes the
      object [self] and the random stream, and returns or raises. *)

From Stdlib Require Import Bool Arith ZArith Lia List Ascii String.
Import ListNotations.
Open Scope string_scope.
Open Scope list_scope.
Open Scope nat_scope.

(** ** Characters *)

Definition code (c : ascii) : nat := nat_of_ascii c.

(** [c.isspace()], equally the regex class [\s]: TAB LF VT FF CR, FS GS RS US
    and the space. *)
Definition isspace (c : ascii) : bool :=
  ((9 <=? code c) && (code c <=? 13)) || ((28 <=? code c) && (code c <=? 32)).

(** [c.isupper()], equally the regex class [[A-Z]]. *)
Definition isupper (c : ascii) : bool :=
  (65 <=? code c) && (code c <=? 90).

Definition islower (c : ascii) : bool :=
  (97 <=? code c) && (code c <=? 122).

(** [c.upper()] *)
Definition upper (c : ascii) : ascii :=
  if islower c then ascii_of_nat (code c - 32) else c.

(** [self.sentence_enders = {'.', '!', '?'}] *)
Definition sentence_enders : list ascii := ["."%char; "!"%char; "?"%char].

Definition is_ender (c : ascii) : bool :=
  existsb (Ascii.eqb c) sentence_enders.

(** The regex class [[.!?,:;]]. *)
Definition is_punct (c : ascii) : bool :=
  existsb (Ascii.eqb c)
    ["."%char; "!"%char; "?"%char; ","%char; ":"%char; ";"%char].

(** ** Strings *)

Fixpoint last_char (s : string) : option ascii :=
  match s with
  | EmptyString => None
  | String c EmptyString => Some c
  | String _ s' => last_char s'
  end.

(** [s.endswith(e)] for a one-character [e]. *)
Definition endswith (s : string) (e : ascii) : bool :=
  match last_char s with
  | Some c => Ascii.eqb c e
  | None => false
  end.

(** [any(s.endswith(end) for end in self.sentence_enders)] *)
Definition ends_with_ender (s : string) : bool :=
  existsb (endswith s) sentence_enders.

(** [w[0].isupper()]; the tokens it is applied to are never empty
    (see [tokenize_text_nonempty]). *)
Definition starts_upper (w : string) : bool :=
  match w with
  | EmptyString => false
  | String c _ => isupper c
  end.

(** [s.upper()] *)
Fixpoint str_upper (s : string) : string :=
  match s with
  | EmptyString => EmptyString
  | String c s' => String (upper c) (str_upper s')
  end.

Fixpoint lstrip (s : string) : string :=
  match s with
  | EmptyString => EmptyString
  | String c s' => if isspace c then lstrip s' else s
  end.

Fixpoint rstrip (s : string) : string :=
  match s with
  | EmptyString => EmptyString
  | String c s' =>
      match rstrip s' with
      | EmptyString => if isspace c then EmptyString else String c EmptyString
      | r => String c r
      end
  end.

(** [s.strip()] *)
Definition strip (s : string) : string := rstrip (lstrip s).

(** [s.split()]: the maximal runs of characters that are not white space.
    [cur] is the token being read. *)
Fixpoint split_from (cur : string) (s : string) : list string :=
  match s with
  | EmptyString =>
      match cur with EmptyString => [] | _ => [cur] end
  | String c s' =>
      if isspace c
      then match cur with
           | EmptyString => split_from EmptyString s'
           | _ => cur :: split_from EmptyString s'
           end
      else split_from (cur ++ String c EmptyString)%string s'
  end.

Definition split (s : string) : list string := split_from EmptyString s.

(** ** Regular-expression substitution

    [re.sub(pattern, repl, s)] scans [s] from the left; where the pattern
    matches it writes the replacement and resumes after the match, elsewhere
    it copies one character.  A [matcher] tells, for the text at the current
    position, the replacement and the text left after the match.  The three
    patterns of the program match no empty string, so the text left is
    shorter and [String.length s] steps are enough. *)

Definition matcher := string -> option (string * string).

Fixpoint re_sub_fuel (m : matcher) (fuel : nat) (s : string) : string :=
  match fuel with
  | O => s
  | S f =>
      match m s with
      | Some (repl, rest) => (repl ++ re_sub_fuel m f rest)%string
      | None =>
          match s with
          | EmptyString => EmptyString
          | String c s' => String c (re_sub_fuel m f s')
          end
      end
  end.

Definition re_sub (m : matcher) (s : string) : string :=
  re_sub_fuel m (String.length s) s.

(** [\s+] and [\s*] are greedy; giving white space back never helps the
    three patterns, since what follows them must not be white space. *)
Definition skip_spaces : string -> string := lstrip.

(** [re.sub(r'\s+', ' ', s)] *)
Definition match_spaces : matcher := fun s =>
  match s with
  | String c s' =>
      if isspace c then Some (" ", skip_spaces s') else None
  | EmptyString => None
  end.

(** [re.sub(r'\s+([.!?,:;])', r'\1', s)] *)
Definition match_space_punct : matcher := fun s =>
  match s with
  | String c s' =>
      if isspace c
      then match skip_spaces s' with
           | String p rest =>
               if is_punct p then Some (String p EmptyString, rest) else None
           | EmptyString => None
           end
      else None
  | EmptyString => None
  end.

(** [re.sub(r'([.!?])\s*([A-Z])', r'\1 \2', s)] *)
Definition match_ender_upper : matcher := fun s =>
  match s with
  | String p s' =>
      if is_ender p
      then match skip_spaces s' with
           | String u rest =>
               if isupper u
               then Some (String p (String " " (String u EmptyString)), rest)
               else None
           | EmptyString => None
           end
      else None
  | EmptyString => None
  end.

(** ** The generator object *)

Definition dict := list (string * list string).

Record generator := mkGenerator {
  bigrams : dict;
  sentence_starters : list string
}.

(** [BookSynopsisGenerator()] *)
Definition init : generator := mkGenerator [] [].

Fixpoint dd_lookup (d : dict) (k : string) : option (list string) :=
  match d with
  | [] => None
  | (k', v) :: d' => if String.eqb k' k then Some v else dd_lookup d' k
  end.

(** [d.get(k, default)]: never inserts. *)
Definition dd_get (d : dict) (k : string) (default : list string)
  : list string :=
  match dd_lookup d k with
  | Some v => v
  | None => default
  end.

(** [d[k]] on a [defaultdict(list)]: a missing key is inserted with a new
    empty list. *)
Definition dd_getitem (d : dict) (k : string) : list string * dict :=
  match dd_lookup d k with
  | Some v => (v, d)
  | None => ([], d ++ [(k, [])])
  end.

(** The list held under [k] has become [v] (it was mutated in place). *)
Fixpoint dd_store (d : dict) (k : string) (v : list string) : dict :=
  match d with
  | [] => []
  | (k', v') :: d' =>
      if String.eqb k' k then (k', v) :: d' else (k', v') :: dd_store d' k v
  end.

(** [d[k].append(x)] *)
Definition dd_append (d : dict) (k x : string) : dict :=
  let (l, d1) := dd_getitem d k in
  dd_store d1 k (l ++ [x]).

Definition keys (d : dict) : list string := map fst d.
Definition values (d : dict) : list (list string) := map snd d.

(** ** Trainer *)

(** [_tokenize_text] *)
Definition _tokenize_text (text : string) : list string :=
  let text := re_sub match_spaces (strip text) in
  let words := split text in
  words.

(** The body of the loop of [load_training_data] at index [i]. *)
Definition train_step (words : list string) (g : generator) (i : nat)
  : generator :=
  let current_word := nth i words EmptyString in
  let next_word := nth (i + 1) words EmptyString in
  let g := mkGenerator (dd_append (bigrams g) current_word next_word)
                       (sentence_starters g) in
  if (0 <? i) && ends_with_ender (nth (i - 1) words EmptyString)
  then if starts_upper current_word
       then mkGenerator (bigrams g) (sentence_starters g ++ [current_word])
       else g
  else g.

(** [load_training_data] on an already tokenized text. *)
Definition train_words (words : list string) (g : generator) : generator :=
  let g := fold_left (train_step words) (seq 0 (List.length words - 1)) g in
  match words with
  | w0 :: _ =>
      if starts_upper w0
      then mkGenerator (bigrams g) (sentence_starters g ++ [w0])
      else g
  | [] => g
  end.

(** [load_training_data] *)
Definition load_training_data (text : string) (g : generator) : generator :=
  let words := _tokenize_text text in
  train_words words g.

(** ** Methods as computations

    A method returns a value or raises, and leaves the object and the random
    stream in a new state. *)

Inductive exn := IndexError.

Inductive outcome (A : Type) :=
| Return (a : A)
| Raise (e : exn).
Arguments Return {A} a.
Arguments Raise {A} e.

Record world := mkWorld {
  self : generator;
  draws : nat -> nat
}.

Definition M (A : Type) : Type := world -> outcome A * world.

Definition ret {A : Type} (a : A) : M A := fun w => (Return a, w).

Definition bind {A B : Type} (m : M A) (k : A -> M B) : M B := fun w =>
  match m w with
  | (Return a, w') => k a w'
  | (Raise e, w') => (Raise e, w')
  end.

Notation "x <- m ;; k" := (bind m (fun x => k))
  (at level 61, m at next level, right associativity).

Definition get_self : M generator := fun w => (Return (self w), w).

Definition put_self (g : generator) : M unit := fun w =>
  (Return tt, mkWorld g (draws w)).

(** [random.choice(seq)]: [IndexError] on an empty sequence, else the element
    at the next draw reduced below [len(seq)]. *)
Definition random_choice (seq : list string) : M string := fun w =>
  match seq with
  | [] => (Raise IndexError, w)
  | _ :: _ =>
      (Return (nth (draws w 0 mod List.length seq) seq EmptyString),
       mkWorld (self w) (fun n => draws w (S n)))
  end.

(** ** Post-processor *)

(** Line 138: a text that is not empty and ends in no sentence ender gets a
    final period. *)
Definition ensure_sentence_end (text : string) : string :=
  if negb (text =? "")%string && negb (ends_with_ender text)
  then (text ++ ".")%string else text.

(** Line 147: [text[0].upper() + text[1:] if len(text) > 1 else
    text.upper()], for a text that is not empty. *)
Definition capitalize_first (text : string) : string :=
  match text with
  | EmptyString => text
  | String c rest =>
      if 1 <? String.length text then String (upper c) rest
      else str_upper text
  end.

(** [_post_process_text] *)
Definition _post_process_text (text : string) : string :=
  let text := ensure_sentence_end text in
  let text := re_sub match_space_punct text in
  let text := re_sub match_ender_upper text in
  let text := capitalize_first text in
  text.

(** ** Sampler *)

(** [_choose_starting_word] *)
Definition _choose_starting_word : M string :=
  g <- get_self ;;
  match sentence_starters g with
  | _ :: _ => random_choice (sentence_starters g)
  | [] =>
      match bigrams g with
      | _ :: _ =>
          let capitalized_words :=
            filter (fun word => negb (word =? "")%string && starts_upper word)
                   (keys (bigrams g)) in
          match capitalized_words with
          | _ :: _ => random_choice capitalized_words
          | [] => random_choice (keys (bigrams g))
          end
      | [] => ret "The"
      end
  end.

(** The exit the loop of [generate_synopsis] took: the [break] on an empty
    successor list, the [break] on a sentence end, or the end of [range]. *)
Inductive stop := DeadEnd | NaturalEnd | Exhausted.

(** The loop [for i in range(max_length - 1)] of [generate_synopsis], with
    [remaining] iterations to go from index [i]. *)
Fixpoint walk (min_length : Z) (remaining : nat) (i : Z)
    (current_word : string) (synopsis : list string)
  : M (list string * stop) :=
  match remaining with
  | O => ret (synopsis, Exhausted)
  | S remaining' =>
      g <- get_self ;;
      let next_words := dd_get (bigrams g) current_word [] in
      match next_words with
      | [] => ret (synopsis, DeadEnd)
      | _ :: _ =>
          next_word <- random_choice next_words ;;
          let synopsis := synopsis ++ [next_word] in
          if (i >=? min_length - 1)%Z && ends_with_ender next_word
          then ret (synopsis, NaturalEnd)
          else walk min_length remaining' (i + 1)%Z next_word synopsis
      end
  end.

(** Lines 81 to 101 of [generate_synopsis]: the start word and the walk. *)
Definition sample_walk (max_length min_length : Z) : M (list string * stop) :=
  current_word <- _choose_starting_word ;;
  walk min_length (Z.to_nat (max_length - 1)) 0%Z current_word [current_word].

Definition no_training_data : string := "No training data available.".

(** [generate_synopsis] *)
Definition generate_synopsis (max_length min_length : Z) : M string :=
  g <- get_self ;;
  match bigrams g with
  | [] => ret no_training_data
  | _ :: _ =>
      r <- sample_walk max_length min_length ;;
      let result := String.concat " " (fst r) in
      ret (_post_process_text result)
  end.

(** The loop of [generate_multiple_synopses], with [remaining] iterations
    to go. *)
Fixpoint generate_loop (remaining : nat) (max_length : Z)
    (synopses : list string) : M (list string) :=
  match remaining with
  | O => ret synopses
  | S remaining' =>
      synopsis <- generate_synopsis max_length 20 ;;
      generate_loop remaining' max_length (synopses ++ [synopsis])
  end.

(** [generate_multiple_synopses]; [generate_synopsis] is called with its
    default [min_length = 20]. *)
Definition generate_multiple_synopses (count max_length : Z)
  : M (list string) :=
  generate_loop (Z.to_nat count) max_length [].

(** ** Reporting *)

(** [l[:n]] *)
Definition slice_to {A : Type} (n : Z) (l : list A) : list A :=
  if (n <? 0)%Z
  then firstn (Z.to_nat (Z.of_nat (List.length l) + n)) l
  else firstn (Z.to_nat n) l.

(** What [print_bigram_sample] prints, line by line; an entry line shows the
    word, at most ten of its successors, and dots when there are more. *)
Inductive line :=
| Header
| Entry (word : string) (shown : list string) (more : bool)
| Blank.

(** [print_bigram_sample]; the result is the printed text. *)
Definition print_bigram_sample (sample_size : Z) : M (list line) :=
  g <- get_self ;;
  let items := slice_to sample_size (bigrams g) in
  ret (Header
       :: map (fun '(word, next_words) =>
                 Entry word (slice_to 10 next_words)
                       (10 <? List.length next_words)) items
       ++ [Blank]).

Record stats := mkStats {
  unique_words : nat;
  total_transitions : nat;
  distinct_starters : nat
}.

(** [get_stats] *)
Definition get_stats : M stats :=
  g <- get_self ;;
  let total_words := List.length (bigrams g) in
  let total_transitions :=
    list_sum (map (fun transitions => List.length transitions)
                  (values (bigrams g))) in
  ret (mkStats total_words total_transitions
               (List.length (nodup string_dec (sentence_starters g)))).

(** [load_training_data] as a method. *)
Definition load_training_data_method (text : string) : M unit :=
  g <- get_self ;;
  put_self (load_training_data text g).

(** The operations of the object and the state each leaves behind. *)
Inductive operation :=
| Load (text : string)
| Generate (max_length min_length : Z)
| GetStats
| PrintBigramSample (sample_size : Z).

Definition run (op : operation) (w : world) : world :=
  match op with
  | Load text => snd (load_training_data_method text w)
  | Generate max_length min_length =>
      snd (generate_synopsis max_length min_length w)
  | GetStats => snd (get_stats w)
  | PrintBigramSample sample_size => snd (print_bigram_sample sample_size w)
  end.

(** The generators a program can hold: a new one, trained any number of
    times. *)
Inductive reachable : generator -> Prop :=
| reachable_init : reachable init
| reachable_load text g :
    reachable g -> reachable (load_training_data text g).

(** Every key of the transition table has a successor. *)
Definition successors_nonempty (d : dict) : Prop :=
  Forall (fun kv => snd kv <> []) d.

(** ** Notions the proofs speak of *)

(** A match consumes at least one character. *)
Definition shrinks (m : matcher) : Prop :=
  forall s repl rest,
    m s = Some (repl, rest) -> String.length rest < String.length s.

(** Wherever [m] matches in [s], the replacement is the matched text. *)
Fixpoint stable (m : matcher) (s : string) : Prop :=
  match m s with
  | Some (repl, rest) => s = (repl ++ rest)%string
  | None => True
  end /\
  match s with
  | EmptyString => True
  | String _ s' => stable m s'
  end.

Definition head_is (P : ascii -> bool) (s : string) : bool :=
  match s with
  | String c _ => P c
  | EmptyString => false
  end.

(** No white space stands immediately before a punctuation mark. *)
Fixpoint no_space_punct (s : string) : bool :=
  match s with
  | EmptyString => true
  | String c s' =>
      negb (isspace c && head_is is_punct s') && no_space_punct s'
  end.

(** A walk that stops at the first sentence end from [threshold] tokens on:
    no token of the synopsis after the start word ends a sentence at a
    length of at least [threshold] and is followed by another token. *)
Definition stops_at_sentence_end (threshold : Z) (synopsis : list string)
  : Prop :=
  forall j,
    1 <= j -> j + 1 < List.length synopsis ->
    (threshold <= Z.of_nat (j + 1))%Z ->
    ends_with_ender (nth j synopsis EmptyString) = false.

(** The text has no white space. *)
Fixpoint has_no_space (s : string) : bool :=
  match s with
  | EmptyString => true
  | String c s' => negb (isspace c) && has_no_space s'
  end.

(** A word: not empty, no white space. *)
Definition is_word (w : string) : Prop :=
  w <> EmptyString /\ has_no_space w = true.

(** The tokens that follow an occurrence of [k] in [words], in order. *)
Fixpoint followers (k : string) (words : list string) : list string :=
  match words with
  | [] => []
  | a :: tl =>
      match tl with
      | [] => []
      | b :: _ =>
          if (a =? k)%string then b :: followers k tl else followers k tl
      end
  end.

(** [b] stands immediately after [a] somewhere in [words]. *)
Definition adjacent (a b : string) (words : list string) : Prop :=
  exists l1 l2, words = l1 ++ a :: b :: l2.

(** Every step of [synopsis] is a transition of the table [d]. *)
Fixpoint chain (d : dict) (synopsis : list string) : Prop :=
  match synopsis with
  | [] => True
  | a :: tl =>
      match tl with
      | [] => True
      | b :: _ => In b (dd_get d a []) /\ chain d tl
      end
  end.

(** The number of transitions the table records. *)
Definition transitions (d : dict) : nat :=
  list_sum (map (fun succ => List.length succ) (values d)).

(** No token of the model is the empty string. *)
Definition tokens_nonempty (g : generator) : Prop :=
  Forall (fun w => w <> EmptyString) (sentence_starters g) /\
  Forall (fun w => w <> EmptyString) (keys (bigrams g)).

(** * Properties *)

(** ** The transition table *)

Lemma dd_lookup_app_last d k v k' :
  dd_lookup (d ++ [(k, v)]) k' =
  match dd_lookup d k' with
  | Some x => Some x
  | None => if (k =? k')%string then Some v else None
  end.
Proof.
  induction d as [|[k0 v0] d IH]; simpl.
  - reflexivity.
  - destruct (k0 =? k')%string; [reflexivity | exact IH].
Qed.

Lemma dd_lookup_store d k v k' :
  dd_lookup (dd_store d k v) k' =
  if (k =? k')%string
  then match dd_lookup d k with Some _ => Some v | None => None end
  else dd_lookup d k'.
Proof.
  induction d as [|[k0 v0] d IH]; simpl.
  - destruct (k =? k')%string; reflexivity.
  - destruct (String.eqb_spec k0 k) as [E0|N0]; simpl.
    + subst k0. destruct (k =? k')%string; reflexivity.
    + rewrite IH.
      destruct (String.eqb_spec k k') as [E|N].
      * subst k'. apply String.eqb_neq in N0. rewrite N0. reflexivity.
      * reflexivity.
Qed.

(** After [d[k].append(x)] the list under [k] is the old one (empty when
    [k] was missing) followed by [x]; no other key changes. *)
Lemma dd_get_append d k x k' :
  dd_get (dd_append d k x) k' [] =
  if (k =? k')%string then dd_get d k [] ++ [x] else dd_get d k' [].
Proof.
  unfold dd_get, dd_append, dd_getitem.
  destruct (dd_lookup d k) as [v|] eqn:Hk; rewrite dd_lookup_store.
  - rewrite Hk. destruct (k =? k')%string; reflexivity.
  - rewrite !dd_lookup_app_last, Hk, String.eqb_refl.
    destruct (String.eqb_spec k k') as [E|N].
    + reflexivity.
    + destruct (dd_lookup d k'); reflexivity.
Qed.

Lemma dd_store_nonempty d k v :
  v <> [] -> successors_nonempty d -> successors_nonempty (dd_store d k v).
Proof.
  intros Hv. induction 1 as [|[k0 v0] d H0 Hd IH]; simpl.
  - constructor.
  - destruct (k0 =? k)%string; constructor; simpl; assumption.
Qed.

Lemma dd_store_new d k v0 v :
  dd_lookup d k = None -> dd_store (d ++ [(k, v0)]) k v = d ++ [(k, v)].
Proof.
  induction d as [|[k0 v1] d IH]; simpl.
  - intros _. rewrite String.eqb_refl. reflexivity.
  - destruct (k0 =? k)%string; [discriminate|].
    intros H. rewrite (IH H). reflexivity.
Qed.

Lemma dd_append_nonempty d k x :
  successors_nonempty d -> successors_nonempty (dd_append d k x).
Proof.
  intros Hd. unfold dd_append, dd_getitem.
  destruct (dd_lookup d k) as [v|] eqn:Hk.
  - apply dd_store_nonempty; [|exact Hd]. destruct v; discriminate.
  - rewrite dd_store_new by exact Hk.
    apply Forall_app. split; [exact Hd|].
    constructor; [discriminate | constructor].
Qed.

Lemma keys_dd_store d k v : keys (dd_store d k v) = keys d.
Proof.
  induction d as [|[k0 v0] d IH]; simpl; [reflexivity|].
  destruct (k0 =? k)%string; simpl; [reflexivity|].
  f_equal. exact IH.
Qed.

(** The keys after [d[k].append(x)]: those of [d], and [k]. *)
Lemma keys_dd_append d k x k' :
  In k' (keys (dd_append d k x)) -> In k' (keys d) \/ k' = k.
Proof.
  unfold dd_append, dd_getitem.
  destruct (dd_lookup d k); rewrite keys_dd_store.
  - intros H. left. exact H.
  - unfold keys. rewrite map_app. intros H.
    apply in_app_or in H. destruct H as [H|[H|[]]]; [left; exact H|].
    right. symmetry. exact H.
Qed.

(** ** The trainer *)

Lemma bigrams_train_step words g i :
  bigrams (train_step words g i) =
  dd_append (bigrams g) (nth i words EmptyString)
            (nth (i + 1) words EmptyString).
Proof.
  unfold train_step.
  destruct ((0 <? i) && ends_with_ender (nth (i - 1) words EmptyString));
    [destruct (starts_upper (nth i words EmptyString))|]; reflexivity.
Qed.

Lemma starters_train_step words g i :
  sentence_starters (train_step words g i) =
  sentence_starters g ++
  (if (0 <? i) && ends_with_ender (nth (i - 1) words EmptyString)
      && starts_upper (nth i words EmptyString)
   then [nth i words EmptyString] else []).
Proof.
  unfold train_step.
  destruct ((0 <? i) && ends_with_ender (nth (i - 1) words EmptyString));
    [destruct (starts_upper (nth i words EmptyString))|]; simpl;
    rewrite ?app_nil_r; reflexivity.
Qed.

(** The loop adds to the model it starts from what it adds to an empty
    model. *)
Lemma train_loop_accumulates words l g :
  (forall k,
     dd_get (bigrams (fold_left (train_step words) l g)) k [] =
     dd_get (bigrams g) k [] ++
     dd_get (bigrams (fold_left (train_step words) l init)) k []) /\
  sentence_starters (fold_left (train_step words) l g) =
  sentence_starters g ++
  sentence_starters (fold_left (train_step words) l init).
Proof.
  induction l as [|i l IH] using rev_ind.
  - simpl. split; [intros k|]; rewrite app_nil_r; reflexivity.
  - destruct IH as [IHb IHs]. rewrite !fold_left_app. simpl. split.
    + intros k. rewrite !bigrams_train_step, !dd_get_append.
      destruct (String.eqb_spec (nth i words EmptyString) k) as [E|N].
      * rewrite <- E, IHb, app_assoc. reflexivity.
      * apply IHb.
    + rewrite !starters_train_step, IHs, app_assoc. reflexivity.
Qed.

Lemma train_words_accumulates words g :
  (forall k,
     dd_get (bigrams (train_words words g)) k [] =
     dd_get (bigrams g) k [] ++ dd_get (bigrams (train_words words init)) k [])
  /\ sentence_starters (train_words words g) =
     sentence_starters g ++ sentence_starters (train_words words init).
Proof.
  unfold train_words.
  destruct (train_loop_accumulates words (seq 0 (List.length words - 1)) g)
    as [Hb Hs].
  revert Hb Hs.
  generalize (fold_left (train_step words) (seq 0 (List.length words - 1)) g).
  generalize (fold_left (train_step words) (seq 0 (List.length words - 1))
                        init).
  intros g0 g1 Hb Hs.
  destruct words as [|w0 ws]; [split; assumption|].
  destruct (starts_upper w0); simpl; [|split; assumption].
  split; [exact Hb|]. rewrite Hs, app_assoc. reflexivity.
Qed.

Lemma fold_left_invariant {A B : Type} (P : A -> Prop) (Q : B -> Prop)
    (f : A -> B -> A) l a :
  (forall a b, P a -> Q b -> P (f a b)) ->
  Forall Q l -> P a -> P (fold_left f l a).
Proof.
  intros Hf Hl. revert a.
  induction Hl as [|b l Hb _ IH]; simpl; intros a Ha.
  - exact Ha.
  - apply IH, Hf; assumption.
Qed.

Lemma train_words_successors_nonempty words g :
  successors_nonempty (bigrams g) ->
  successors_nonempty (bigrams (train_words words g)).
Proof.
  intros Hg.
  assert (H : successors_nonempty
                (bigrams (fold_left (train_step words)
                                    (seq 0 (List.length words - 1)) g))).
  { apply (fold_left_invariant
             (fun g => successors_nonempty (bigrams g)) (fun _ => True)).
    - intros a i Ha _. rewrite bigrams_train_step.
      apply dd_append_nonempty, Ha.
    - apply Forall_forall. intros; exact I.
    - exact Hg. }
  unfold train_words. revert H.
  generalize (fold_left (train_step words) (seq 0 (List.length words - 1)) g).
  intros g1 H. destruct words as [|w0 ws]; [exact H|].
  destruct (starts_upper w0); exact H.
Qed.

(** [split] yields no empty token. *)
Lemma split_from_nonempty s : forall cur,
  Forall (fun w => w <> EmptyString) (split_from cur s).
Proof.
  induction s as [|c s IH]; intros cur; simpl.
  - destruct cur; constructor; [discriminate | constructor].
  - destruct (isspace c).
    + destruct cur; [apply IH|].
      constructor; [discriminate | apply IH].
    + apply IH.
Qed.

Lemma tokenize_text_nonempty text :
  Forall (fun w => w <> EmptyString) (_tokenize_text text).
Proof. apply split_from_nonempty. Qed.

Lemma train_step_tokens_nonempty words g i :
  Forall (fun w => w <> EmptyString) words ->
  tokens_nonempty g -> i < List.length words ->
  tokens_nonempty (train_step words g i).
Proof.
  intros Hw [Hs Hk] Hi.
  assert (Hc : nth i words EmptyString <> EmptyString).
  { rewrite Forall_forall in Hw. apply Hw, nth_In, Hi. }
  split.
  - rewrite starters_train_step. apply Forall_app. split; [exact Hs|].
    destruct (_ && _); constructor; [exact Hc | constructor].
  - rewrite bigrams_train_step. apply Forall_forall. intros k Hin.
    apply keys_dd_append in Hin. destruct Hin as [Hin| ->]; [|exact Hc].
    rewrite Forall_forall in Hk. apply Hk, Hin.
Qed.

Lemma train_words_tokens_nonempty words g :
  Forall (fun w => w <> EmptyString) words ->
  tokens_nonempty g -> tokens_nonempty (train_words words g).
Proof.
  intros Hw Hg.
  assert (H : tokens_nonempty
                (fold_left (train_step words)
                           (seq 0 (List.length words - 1)) g)).
  { apply (fold_left_invariant tokens_nonempty
             (fun i => i < List.length words)).
    - intros a i Ha Hi. apply train_step_tokens_nonempty; assumption.
    - apply Forall_forall. intros i Hi. apply in_seq in Hi. lia.
    - exact Hg. }
  unfold train_words. revert H.
  generalize (fold_left (train_step words) (seq 0 (List.length words - 1)) g).
  intros g1 [Hs Hk]. destruct words as [|w0 ws]; [split; assumption|].
  destruct (starts_upper w0); [|split; assumption].
  split; [|exact Hk]. simpl. apply Forall_app. split; [exact Hs|].
  constructor; [|constructor]. inversion Hw; assumption.
Qed.

Lemma reachable_successors_nonempty g :
  reachable g -> successors_nonempty (bigrams g).
Proof.
  induction 1 as [|text g _ IH].
  - constructor.
  - apply train_words_successors_nonempty, IH.
Qed.

Lemma reachable_tokens_nonempty g : reachable g -> tokens_nonempty g.
Proof.
  induction 1 as [|text g _ IH].
  - split; constructor.
  - apply train_words_tokens_nonempty; [apply tokenize_text_nonempty | exact IH].
Qed.

(** Inside the loop the starter rule is applied: a capitalized token that
    follows a sentence end and is not the last token joins the pool. *)
Lemma starter_detection_inner words g i :
  0 < i -> i + 1 < List.length words ->
  ends_with_ender (nth (i - 1) words EmptyString) = true ->
  starts_upper (nth i words EmptyString) = true ->
  In (nth i words EmptyString) (sentence_starters (train_words words g)).
Proof.
  intros Hi Hlen He Hu.
  assert (Hin : In i (seq 0 (List.length words - 1))) by (apply in_seq; lia).
  apply in_split in Hin. destruct Hin as (l1 & l2 & Hsplit).
  assert (H : In (nth i words EmptyString)
                 (sentence_starters
                    (fold_left (train_step words)
                               (seq 0 (List.length words - 1)) g))).
  { rewrite Hsplit, fold_left_app. simpl.
    apply (fold_left_invariant
             (fun g => In (nth i words EmptyString) (sentence_starters g))
             (fun _ => True)).
    - intros a j Ha _. rewrite starters_train_step.
      apply in_or_app. left. exact Ha.
    - apply Forall_forall. intros; exact I.
    - rewrite starters_train_step. apply in_or_app. right.
      apply Nat.ltb_lt in Hi. rewrite Hi, He, Hu. left. reflexivity. }
  unfold train_words. revert H.
  generalize (fold_left (train_step words) (seq 0 (List.length words - 1)) g).
  intros g1 H. destruct words as [|w0 ws]; [exact H|].
  destruct (starts_upper w0); [|exact H].
  simpl. apply in_or_app. left. exact H.
Qed.

(** ** The sampler *)

(** [random.choice] on a sequence that is not empty returns one of its
    elements and consumes one draw. *)
Lemma random_choice_spec seq w :
  seq <> [] ->
  exists x,
    random_choice seq w =
      (Return x, mkWorld (self w) (fun n => draws w (S n))) /\ In x seq.
Proof.
  intros Hne. destruct seq as [|x0 xs]; [contradiction|].
  unfold random_choice. eexists. split; [reflexivity|].
  apply nth_In, Nat.mod_upper_bound. discriminate.
Qed.

(** The start word is drawn from the pool, else from the keys, else it is
    the default word; the choice never raises and leaves the model alone. *)
Lemma choose_starting_word_spec w :
  exists x w',
    _choose_starting_word w = (Return x, w') /\ self w' = self w /\
    (In x (sentence_starters (self w)) \/ In x (keys (bigrams (self w))) \/
     x = "The").
Proof.
  unfold _choose_starting_word, bind, get_self.
  destruct (sentence_starters (self w)) as [|s0 ss] eqn:Hs.
  - destruct (bigrams (self w)) as [|b0 bs] eqn:Hb.
    + exists "The", w. unfold ret. auto.
    + set (cap := filter _ _).
      destruct cap as [|c0 cs] eqn:Hc.
      * destruct (random_choice_spec (keys (b0 :: bs)) w) as (x & Hx & Hin);
          [discriminate|].
        rewrite Hx. eexists _, _. split; [reflexivity|]. auto.
      * destruct (random_choice_spec (c0 :: cs) w) as (x & Hx & Hin);
          [discriminate|].
        rewrite Hx. eexists _, _. split; [reflexivity|].
        split; [reflexivity|]. right; left.
        rewrite <- Hc in Hin. subst cap.
        apply filter_In in Hin. apply Hin.
  - destruct (random_choice_spec (s0 :: ss) w) as (x & Hx & Hin);
      [discriminate|].
    rewrite Hx. eexists _, _. split; [reflexivity|]. auto.
Qed.

Lemma walk_S min_length remaining i current_word synopsis w :
  walk min_length (S remaining) i current_word synopsis w =
  match dd_get (bigrams (self w)) current_word [] with
  | [] => (Return (synopsis, DeadEnd), w)
  | x0 :: xs =>
      match random_choice (x0 :: xs) w with
      | (Return next_word, w1) =>
          if (i >=? min_length - 1)%Z && ends_with_ender next_word
          then (Return (synopsis ++ [next_word], NaturalEnd), w1)
          else walk min_length remaining (i + 1)%Z next_word
                    (synopsis ++ [next_word]) w1
      | (Raise e, w1) => (Raise e, w1)
      end
  end.
Proof.
  cbn [walk]. unfold bind, get_self.
  destruct (dd_get (bigrams (self w)) current_word []); [reflexivity|].
  destruct (random_choice _ w) as [[next_word|e] w1]; [|reflexivity].
  destruct (_ && _); reflexivity.
Qed.

(** The loop always returns.  It extends the synopsis by at most
    [remaining] tokens, by exactly that many when [range] runs out; it stops
    on a sentence end only at an index [>= min_length - 1]; it stops on a
    dead end only at a word with no successor. *)
Lemma walk_spec min_length remaining : forall i current_word synopsis w,
  exists ext r w',
    walk min_length remaining i current_word synopsis w =
      (Return (synopsis ++ ext, r), w') /\
    self w' = self w /\
    List.length ext <= remaining /\
    (r = Exhausted -> List.length ext = remaining) /\
    (r = NaturalEnd ->
       (min_length - 1 <= i + Z.of_nat (List.length ext) - 1)%Z /\
       ext <> [] /\
       ends_with_ender (last ext EmptyString) = true) /\
    (r = DeadEnd ->
       dd_get (bigrams (self w)) (last (current_word :: ext) EmptyString) []
       = []) /\
    (forall k,
       k + 1 < List.length ext ->
       (min_length - 1 <= i + Z.of_nat k)%Z ->
       ends_with_ender (nth k ext EmptyString) = false).
Proof.
  induction remaining as [|remaining IH]; intros i cur syn w.
  - exists [], Exhausted, w. simpl. unfold ret. rewrite app_nil_r.
    repeat split; try discriminate; auto; intros; lia.
  - rewrite walk_S.
    destruct (dd_get (bigrams (self w)) cur []) as [|x0 xs] eqn:Hnext.
    + exists [], DeadEnd, w. rewrite app_nil_r. simpl.
      repeat split; try discriminate; auto; intros; lia.
    + destruct (random_choice_spec (x0 :: xs) w) as (x & Hx & Hin);
        [discriminate|].
      rewrite Hx.
      destruct ((i >=? min_length - 1)%Z && ends_with_ender x) eqn:Hstop.
      * apply andb_prop in Hstop. destruct Hstop as [Hi He].
        exists [x], NaturalEnd, (mkWorld (self w) (fun n => draws w (S n))).
        simpl. repeat split; try discriminate; auto; intros; lia.
      * destruct (IH (i + 1)%Z x (syn ++ [x])
                     (mkWorld (self w) (fun n => draws w (S n))))
          as (ext & r & w' & Hw & Hself & Hlen & Hex & Hnat & Hdead & Hgo).
        exists (x :: ext), r, w'. rewrite Hw, <- app_assoc. simpl in *.
        split; [reflexivity|]. split; [exact Hself|].
        split; [lia|]. split; [intros Hr; rewrite (Hex Hr); reflexivity|].
        split; [|split].
        -- intros Hr. destruct (Hnat Hr) as (H1 & H2 & H3).
           split; [lia|]. split; [discriminate|].
           destruct ext; [contradiction | exact H3].
        -- intros Hr. exact (Hdead Hr).
        -- intros [|k] Hk Hi.
           ++ apply andb_false_iff in Hstop. destruct Hstop as [H|H];
                [|exact H].
              rewrite Z.geb_leb in H. apply Z.leb_gt in H. lia.
           ++ apply Hgo; lia.
Qed.

(** The start word and the walk together. *)
Lemma sample_walk_spec max_length min_length w :
  exists start ext r w',
    sample_walk max_length min_length w = (Return (start :: ext, r), w') /\
    self w' = self w /\
    (In start (sentence_starters (self w)) \/
     In start (keys (bigrams (self w))) \/ start = "The") /\
    List.length ext <= Z.to_nat (max_length - 1) /\
    (r = Exhausted -> List.length ext = Z.to_nat (max_length - 1)) /\
    (r = NaturalEnd ->
       (min_length <= Z.of_nat (List.length ext))%Z /\
       ends_with_ender (last (start :: ext) EmptyString) = true) /\
    (r = DeadEnd ->
       dd_get (bigrams (self w)) (last (start :: ext) EmptyString) [] = [])
    /\ stops_at_sentence_end (min_length + 1) (start :: ext).
Proof.
  unfold sample_walk, bind.
  destruct (choose_starting_word_spec w) as (start & w1 & Hc & Hs1 & Hin).
  rewrite Hc.
  destruct (walk_spec min_length (Z.to_nat (max_length - 1)) 0%Z start
                      [start] w1)
    as (ext & r & w' & Hw & Hself & Hlen & Hex & Hnat & Hdead & Hgo).
  exists start, ext, r, w'. rewrite Hw. simpl.
  split; [reflexivity|]. split; [congruence|]. split; [exact Hin|].
  split; [exact Hlen|]. split; [exact Hex|]. split; [|split].
  - intros Hr. destruct (Hnat Hr) as (H1 & H2 & H3). split; [lia|].
    destruct ext; [contradiction | exact H3].
  - intros Hr. rewrite <- Hs1. exact (Hdead Hr).
  - intros j Hj Hlt Hth. destruct j as [|k]; [lia|].
    simpl in Hlt |- *. apply Hgo; lia.
Qed.

(** ** Characters and strings *)

Lemma char_classes c :
  is_punct c && isspace c = false /\
  isupper c && isspace c = false /\
  isupper c && is_punct c = false /\
  isupper c && is_ender c = false /\
  is_ender c && negb (is_punct c) = false /\
  islower c && is_ender (upper c) = false /\
  islower c && isspace (upper c) = false /\
  isspace " " = true /\
  is_ender " " = false /\
  is_punct " " = false.
Proof.
  destruct c as [[] [] [] [] [] [] [] []]; vm_compute; repeat split.
Qed.

Lemma upper_idempotent c : upper (upper c) = upper c.
Proof. destruct c as [[] [] [] [] [] [] [] []]; reflexivity. Qed.

Lemma is_ender_upper c : is_ender (upper c) = is_ender c.
Proof. destruct c as [[] [] [] [] [] [] [] []]; reflexivity. Qed.

Lemma isspace_upper c : isspace (upper c) = isspace c.
Proof. destruct c as [[] [] [] [] [] [] [] []]; reflexivity. Qed.

Lemma punct_not_space c : is_punct c = true -> isspace c = false.
Proof.
  intros H. destruct (char_classes c) as (H1 & _).
  rewrite H in H1. exact H1.
Qed.

Lemma upper_not_space c : isupper c = true -> isspace c = false.
Proof.
  intros H. destruct (char_classes c) as (_ & H1 & _).
  rewrite H in H1. exact H1.
Qed.

Lemma upper_not_punct c : isupper c = true -> is_punct c = false.
Proof.
  intros H. destruct (char_classes c) as (_ & _ & H1 & _).
  rewrite H in H1. exact H1.
Qed.

Lemma upper_not_ender c : isupper c = true -> is_ender c = false.
Proof.
  intros H. destruct (char_classes c) as (_ & _ & _ & H1 & _).
  rewrite H in H1. exact H1.
Qed.

Lemma ender_not_space c : is_ender c = true -> isspace c = false.
Proof.
  intros H. destruct (char_classes c) as (H1 & _ & _ & _ & H2 & _).
  rewrite H in H2. simpl in H2. apply negb_false_iff in H2.
  rewrite H2 in H1. exact H1.
Qed.

Lemma str_length_app a b :
  String.length (a ++ b)%string = String.length a + String.length b.
Proof. induction a as [|c a IH]; simpl; [reflexivity | rewrite IH; reflexivity]. Qed.

Lemma last_char_cons c s :
  last_char (String c s) =
  match last_char s with Some x => Some x | None => Some c end.
Proof.
  revert c. induction s as [|d s IH]; intros c; [reflexivity|].
  change (last_char (String c (String d s))) with (last_char (String d s)).
  rewrite (IH d). destruct (last_char s); reflexivity.
Qed.

Lemma last_char_none s : last_char s = None -> s = EmptyString.
Proof.
  destruct s as [|c s]; [reflexivity|]. rewrite last_char_cons.
  destruct (last_char s); discriminate.
Qed.

Lemma last_char_app_char s c : last_char (s ++ String c EmptyString) = Some c.
Proof.
  induction s as [|d s IH]; [reflexivity|].
  change (last_char (String d (s ++ String c EmptyString)) = Some c).
  rewrite last_char_cons, IH. reflexivity.
Qed.

Lemma ends_with_ender_last s :
  ends_with_ender s =
  match last_char s with Some c => is_ender c | None => false end.
Proof.
  unfold ends_with_ender, endswith, is_ender.
  destruct (last_char s); reflexivity.
Qed.

Lemma lstrip_length s : String.length (lstrip s) <= String.length s.
Proof.
  induction s as [|c s IH]; simpl; [lia|].
  destruct (isspace c); simpl; lia.
Qed.

Lemma last_char_lstrip s :
  lstrip s <> EmptyString -> last_char s = last_char (lstrip s).
Proof.
  induction s as [|c s IH]; [reflexivity|]. simpl lstrip.
  destruct (isspace c); [|reflexivity].
  intros H. rewrite last_char_cons, (IH H).
  destruct (last_char (lstrip s)) eqn:E; [reflexivity|].
  apply last_char_none in E. contradiction.
Qed.

(** ** Substitution *)

Lemma shrinks_empty m : shrinks m -> m EmptyString = None.
Proof.
  intros Hm. destruct (m EmptyString) as [[repl rest]|] eqn:E; [|reflexivity].
  apply Hm in E. simpl in E. lia.
Qed.

Lemma re_sub_fuel_enough m : shrinks m -> forall f1 f2 s,
  String.length s <= f1 -> String.length s <= f2 ->
  re_sub_fuel m f1 s = re_sub_fuel m f2 s.
Proof.
  intros Hm. induction f1 as [|f1 IH]; intros f2 s H1 H2.
  - destruct s; [|simpl in H1; lia].
    destruct f2; simpl; [reflexivity|].
    rewrite (shrinks_empty m Hm). reflexivity.
  - destruct f2 as [|f2].
    + destruct s; [|simpl in H2; lia]. simpl.
      rewrite (shrinks_empty m Hm). reflexivity.
    + simpl. destruct (m s) as [[repl rest]|] eqn:E.
      * apply Hm in E. f_equal. apply IH; lia.
      * destruct s as [|c s]; [reflexivity|]. simpl in H1, H2.
        f_equal. apply IH; lia.
Qed.

(** The equation of [re.sub]. *)
Lemma re_sub_unfold m s : shrinks m ->
  re_sub m s =
  match m s with
  | Some (repl, rest) => (repl ++ re_sub m rest)%string
  | None =>
      match s with
      | EmptyString => EmptyString
      | String c s' => String c (re_sub m s')
      end
  end.
Proof.
  intros Hm. unfold re_sub. destruct s as [|c s].
  - simpl. rewrite (shrinks_empty m Hm). reflexivity.
  - change (String.length (String c s)) with (S (String.length s)).
    cbn [re_sub_fuel]. destruct (m (String c s)) as [[repl rest]|] eqn:E.
    + apply Hm in E. simpl in E. f_equal.
      apply re_sub_fuel_enough; [exact Hm | lia | lia].
    + reflexivity.
Qed.

(** Induction on the length of the text, as [re.sub] advances by matches. *)
Lemma string_length_ind (P : string -> Prop) :
  (forall s, (forall t, String.length t < String.length s -> P t) -> P s) ->
  forall s, P s.
Proof.
  intros H s.
  assert (G : forall n t, String.length t < n -> P t).
  { induction n as [|n IH]; intros t Ht; [lia|].
    apply H. intros u Hu. apply IH. lia. }
  apply (G (S (String.length s))). lia.
Qed.

Lemma stable_suffix m pre rest :
  stable m (pre ++ rest)%string -> stable m rest.
Proof.
  induction pre as [|c pre IH]; simpl; [tauto|].
  intros [_ H]. apply IH, H.
Qed.

Lemma stable_tail m c s : stable m (String c s) -> stable m s.
Proof. simpl. tauto. Qed.

(** A text on which every match is replaced by itself is left as it is. *)
Lemma re_sub_stable m : shrinks m -> forall s, stable m s -> re_sub m s = s.
Proof.
  intros Hm s. induction s as [s IH] using string_length_ind. intros Hs.
  rewrite (re_sub_unfold m s Hm).
  destruct (m s) as [[repl rest]|] eqn:E.
  - assert (Heq : s = (repl ++ rest)%string).
    { destruct s; simpl in Hs; rewrite E in Hs; apply Hs. }
    rewrite IH.
    + symmetry. exact Heq.
    + apply Hm in E. exact E.
    + apply (stable_suffix m repl). rewrite <- Heq. exact Hs.
  - destruct s as [|c s]; [reflexivity|]. f_equal.
    apply IH; [simpl; lia | apply (stable_tail m c), Hs].
Qed.

(** ** White space before punctuation: [\s+([.!?,:;])] *)

Lemma match_space_punct_cons c s :
  match_space_punct (String c s) =
  if isspace c && head_is is_punct (lstrip s)
  then match lstrip s with
       | String p rest => Some (String p EmptyString, rest)
       | EmptyString => None
       end
  else None.
Proof.
  unfold match_space_punct, skip_spaces.
  destruct (isspace c); [|reflexivity].
  destruct (lstrip s) as [|p rest]; [reflexivity|].
  simpl. destruct (is_punct p); reflexivity.
Qed.

Lemma match_space_punct_inv s repl rest :
  match_space_punct s = Some (repl, rest) ->
  exists c s' p,
    s = String c s' /\ isspace c = true /\ lstrip s' = String p rest /\
    is_punct p = true /\ repl = String p EmptyString.
Proof.
  destruct s as [|c s']; [discriminate|].
  rewrite match_space_punct_cons.
  destruct (isspace c) eqn:Hc; [|discriminate].
  destruct (lstrip s') as [|p r] eqn:Hl; [discriminate|].
  simpl. destruct (is_punct p) eqn:Hp; [|discriminate].
  intros H. inversion H; subst. exists c, s', p. auto.
Qed.

Lemma match_space_punct_shrinks : shrinks match_space_punct.
Proof.
  intros s repl rest H.
  apply match_space_punct_inv in H.
  destruct H as (c & s' & p & -> & _ & Hl & _).
  pose proof (lstrip_length s') as Hlen. rewrite Hl in Hlen.
  simpl in *. lia.
Qed.

Lemma sub_space_punct_last_char s :
  last_char (re_sub match_space_punct s) = last_char s.
Proof.
  induction s as [s IH] using string_length_ind.
  rewrite (re_sub_unfold _ s match_space_punct_shrinks).
  destruct (match_space_punct s) as [[repl rest]|] eqn:E.
  - pose proof (match_space_punct_shrinks _ _ _ E) as Hlt.
    apply match_space_punct_inv in E.
    destruct E as (c & s' & p & -> & _ & Hl & _ & ->).
    change (String p EmptyString ++ re_sub match_space_punct rest)%string
      with (String p (re_sub match_space_punct rest)).
    rewrite !last_char_cons, (IH rest Hlt), (last_char_lstrip s'), Hl.
    + rewrite last_char_cons. destruct (last_char rest); reflexivity.
    + rewrite Hl. discriminate.
  - destruct s as [|c s']; [reflexivity|].
    rewrite !last_char_cons, IH; [reflexivity | simpl; lia].
Qed.

Lemma sub_space_punct_head s :
  head_is is_punct (lstrip s) = false ->
  head_is is_punct (re_sub match_space_punct s) = false.
Proof.
  intros H. rewrite (re_sub_unfold _ s match_space_punct_shrinks).
  destruct s as [|d s']; [reflexivity|].
  rewrite match_space_punct_cons. simpl in H.
  destruct (isspace d) eqn:Hd.
  - rewrite H. simpl.
    destruct (is_punct d) eqn:Hp; [|reflexivity].
    apply punct_not_space in Hp. congruence.
  - exact H.
Qed.

(** After the first substitution no white space is left before a
    punctuation mark. *)
Lemma sub_space_punct_clean s :
  no_space_punct (re_sub match_space_punct s) = true.
Proof.
  induction s as [s IH] using string_length_ind.
  rewrite (re_sub_unfold _ s match_space_punct_shrinks).
  destruct (match_space_punct s) as [[repl rest]|] eqn:E.
  - pose proof (match_space_punct_shrinks _ _ _ E) as Hlt.
    apply match_space_punct_inv in E.
    destruct E as (c & s' & p & -> & _ & _ & Hp & ->).
    change (String p EmptyString ++ re_sub match_space_punct rest)%string
      with (String p (re_sub match_space_punct rest)).
    simpl. rewrite (punct_not_space p Hp), (IH rest Hlt). reflexivity.
  - destruct s as [|c s']; [reflexivity|].
    simpl. rewrite IH by (simpl; lia). rewrite andb_true_r.
    rewrite match_space_punct_cons in E.
    destruct (isspace c) eqn:Hc; [|reflexivity].
    destruct (head_is is_punct (lstrip s')) eqn:Hh.
    + destruct (lstrip s'); [discriminate Hh | discriminate E].
    + rewrite (sub_space_punct_head s' Hh). reflexivity.
Qed.

Lemma no_space_punct_head c s :
  isspace c = true -> no_space_punct (String c s) = true ->
  head_is is_punct (lstrip s) = false.
Proof.
  revert c. induction s as [|d s IH]; intros c Hc H; [reflexivity|].
  simpl in H. rewrite Hc in H. simpl in H.
  apply andb_prop in H. destruct H as [Hd H].
  apply negb_true_iff in Hd. simpl.
  destruct (isspace d) eqn:Hsd.
  - apply (IH d Hsd). simpl. rewrite Hsd. exact H.
  - exact Hd.
Qed.

(** Such a text has no match of the first pattern. *)
Lemma no_space_punct_stable s :
  no_space_punct s = true -> stable match_space_punct s.
Proof.
  induction s as [|c s IH]; intros H.
  - simpl. auto.
  - split.
    + rewrite match_space_punct_cons.
      destruct (isspace c) eqn:Hc; [|exact I].
      rewrite (no_space_punct_head c s Hc H). exact I.
    + apply IH. simpl in H. apply andb_prop in H. apply H.
Qed.

(** ** One space after a sentence end: [([.!?])\s*([A-Z])] *)

Lemma match_ender_upper_cons p s :
  match_ender_upper (String p s) =
  if is_ender p && head_is isupper (lstrip s)
  then match lstrip s with
       | String u rest =>
           Some (String p (String " " (String u EmptyString)), rest)
       | EmptyString => None
       end
  else None.
Proof.
  unfold match_ender_upper, skip_spaces.
  destruct (is_ender p); [|reflexivity].
  destruct (lstrip s) as [|u rest]; [reflexivity|].
  simpl. destruct (isupper u); reflexivity.
Qed.

Lemma match_ender_upper_inv s repl rest :
  match_ender_upper s = Some (repl, rest) ->
  exists p s' u,
    s = String p s' /\ is_ender p = true /\ lstrip s' = String u rest /\
    isupper u = true /\ repl = String p (String " " (String u EmptyString)).
Proof.
  destruct s as [|p s']; [discriminate|].
  rewrite match_ender_upper_cons.
  destruct (is_ender p) eqn:Hp; [|discriminate].
  destruct (lstrip s') as [|u r] eqn:Hl; [discriminate|].
  simpl. destruct (isupper u) eqn:Hu; [|discriminate].
  intros H. inversion H; subst. exists p, s', u. auto.
Qed.

Lemma match_ender_upper_shrinks : shrinks match_ender_upper.
Proof.
  intros s repl rest H.
  apply match_ender_upper_inv in H.
  destruct H as (p & s' & u & -> & _ & Hl & _).
  pose proof (lstrip_length s') as Hlen. rewrite Hl in Hlen.
  simpl in *. lia.
Qed.

(** The second substitution keeps the first character. *)
Lemma sub_ender_upper_cons d s :
  exists z, re_sub match_ender_upper (String d s) = String d z.
Proof.
  rewrite (re_sub_unfold _ _ match_ender_upper_shrinks).
  destruct (match_ender_upper (String d s)) as [[repl rest]|] eqn:E.
  - apply match_ender_upper_inv in E.
    destruct E as (p & s' & u & Hs & _ & _ & _ & ->).
    inversion Hs; subst. eexists. reflexivity.
  - eexists. reflexivity.
Qed.

Lemma sub_ender_upper_head P s :
  head_is P (re_sub match_ender_upper s) = head_is P s.
Proof.
  destruct s as [|d s].
  - rewrite (re_sub_unfold _ _ match_ender_upper_shrinks). reflexivity.
  - destruct (sub_ender_upper_cons d s) as [z ->]. reflexivity.
Qed.

Lemma sub_ender_upper_lstrip_head P s :
  head_is P (lstrip (re_sub match_ender_upper s)) = head_is P (lstrip s).
Proof.
  induction s as [|d s IH].
  - rewrite (re_sub_unfold _ _ match_ender_upper_shrinks). reflexivity.
  - destruct (isspace d) eqn:Hd.
    + rewrite (re_sub_unfold _ _ match_ender_upper_shrinks).
      rewrite match_ender_upper_cons.
      destruct (is_ender d) eqn:He.
      * apply ender_not_space in He. congruence.
      * simpl. rewrite Hd. exact IH.
    + destruct (sub_ender_upper_cons d s) as [z ->].
      simpl. rewrite Hd. reflexivity.
Qed.

Lemma sub_ender_upper_last_char s :
  last_char (re_sub match_ender_upper s) = last_char s.
Proof.
  induction s as [s IH] using string_length_ind.
  rewrite (re_sub_unfold _ s match_ender_upper_shrinks).
  destruct (match_ender_upper s) as [[repl rest]|] eqn:E.
  - pose proof (match_ender_upper_shrinks _ _ _ E) as Hlt.
    apply match_ender_upper_inv in E.
    destruct E as (p & s' & u & -> & _ & Hl & _ & ->).
    change (last_char
              (String p (String " "
                 (String u (re_sub match_ender_upper rest)))) =
            last_char (String p s')).
    rewrite !last_char_cons, (IH rest Hlt), (last_char_lstrip s'), Hl.
    + rewrite last_char_cons. destruct (last_char rest); reflexivity.
    + rewrite Hl. discriminate.
  - destruct s as [|c s']; [reflexivity|].
    rewrite !last_char_cons, IH; [reflexivity | simpl; lia].
Qed.

Lemma app_assoc_string_char a c b :
  ((a ++ String c EmptyString) ++ b)%string = (a ++ String c b)%string.
Proof. induction a as [|d a IH]; simpl; [reflexivity | rewrite IH; reflexivity]. Qed.

Lemma lstrip_suffix s : exists pre, s = (pre ++ lstrip s)%string.
Proof.
  induction s as [|c s [pre IH]].
  - exists EmptyString. reflexivity.
  - simpl. destruct (isspace c).
    + exists (String c pre). simpl. rewrite <- IH. reflexivity.
    + exists EmptyString. reflexivity.
Qed.

Lemma no_space_punct_suffix pre rest :
  no_space_punct (pre ++ rest) = true -> no_space_punct rest = true.
Proof.
  induction pre as [|c pre IH]; simpl; [tauto|].
  intros H. apply andb_prop in H. apply IH, H.
Qed.

(** The second substitution puts no white space before punctuation. *)
Lemma sub_ender_upper_clean s :
  no_space_punct s = true ->
  no_space_punct (re_sub match_ender_upper s) = true.
Proof.
  induction s as [s IH] using string_length_ind. intros Hs.
  rewrite (re_sub_unfold _ s match_ender_upper_shrinks).
  destruct (match_ender_upper s) as [[repl rest]|] eqn:E.
  - pose proof (match_ender_upper_shrinks _ _ _ E) as Hlt.
    apply match_ender_upper_inv in E.
    destruct E as (p & s' & u & -> & _ & Hl & Hu & ->).
    assert (Hrest : no_space_punct rest = true).
    { destruct (lstrip_suffix s') as [pre Hpre]. rewrite Hl in Hpre.
      apply (no_space_punct_suffix (String p pre ++ String u EmptyString)).
      change ((String p pre ++ String u EmptyString) ++ rest)%string
        with (String p ((pre ++ String u EmptyString) ++ rest)%string).
      rewrite app_assoc_string_char, <- Hpre. exact Hs. }
    change (no_space_punct
              (String p (String " "
                 (String u (re_sub match_ender_upper rest)))) = true).
    cbn [no_space_punct head_is].
    destruct (char_classes " ") as (_ & _ & _ & _ & _ & _ & _ & _ & _ & Hsp).
    rewrite Hsp, (upper_not_punct u Hu), (upper_not_space u Hu), !andb_false_r.
    simpl. apply IH; assumption.
  - destruct s as [|c s']; [reflexivity|].
    simpl in Hs |- *. apply andb_prop in Hs. destruct Hs as [H1 H2].
    rewrite sub_ender_upper_head, H1. simpl. apply IH; [simpl; lia | exact H2].
Qed.

(** After the second substitution every match of its pattern already has
    the shape of its replacement. *)
Lemma sub_ender_upper_stable s :
  stable match_ender_upper (re_sub match_ender_upper s).
Proof.
  induction s as [s IH] using string_length_ind.
  rewrite (re_sub_unfold _ s match_ender_upper_shrinks).
  destruct (match_ender_upper s) as [[repl rest]|] eqn:E.
  - pose proof (match_ender_upper_shrinks _ _ _ E) as Hlt.
    apply match_ender_upper_inv in E.
    destruct E as (p & s' & u & -> & Hp & _ & Hu & ->).
    change (stable match_ender_upper
              (String p (String " "
                 (String u (re_sub match_ender_upper rest))))).
    destruct (char_classes " ") as (_ & _ & _ & _ & _ & _ & _ & Hs1 & Hs2 & _).
    split; [|split; [|split]].
    + rewrite match_ender_upper_cons, Hp.
      cbn [lstrip]. rewrite Hs1. cbn [lstrip].
      rewrite (upper_not_space u Hu). cbn [head_is]. rewrite Hu.
      reflexivity.
    + rewrite match_ender_upper_cons, Hs2. exact I.
    + rewrite match_ender_upper_cons, (upper_not_ender u Hu). exact I.
    + apply IH, Hlt.
  - destruct s as [|c s'].
    + simpl. auto.
    + split; [|apply IH; simpl; lia].
      rewrite match_ender_upper_cons, sub_ender_upper_lstrip_head.
      rewrite match_ender_upper_cons in E.
      destruct (is_ender c && head_is isupper (lstrip s')) eqn:Hc; [|exact I].
      apply andb_prop in Hc. destruct Hc as [_ Hc].
      destruct (lstrip s'); [discriminate Hc | discriminate E].
Qed.

(** ** Capital first letter *)

Lemma capitalize_first_cons c rest :
  capitalize_first (String c rest) = String (upper c) rest.
Proof.
  unfold capitalize_first. destruct rest as [|d rest]; reflexivity.
Qed.

Lemma capitalize_first_idempotent s :
  capitalize_first (capitalize_first s) = capitalize_first s.
Proof.
  destruct s as [|c rest]; [reflexivity|].
  rewrite !capitalize_first_cons, upper_idempotent. reflexivity.
Qed.

Lemma capitalize_first_ender s :
  ends_with_ender (capitalize_first s) = ends_with_ender s.
Proof.
  destruct s as [|c rest]; [reflexivity|].
  rewrite capitalize_first_cons, !ends_with_ender_last, !last_char_cons.
  destruct (last_char rest); [reflexivity | apply is_ender_upper].
Qed.

Lemma capitalize_first_clean s :
  no_space_punct s = true -> no_space_punct (capitalize_first s) = true.
Proof.
  destruct s as [|c rest]; [reflexivity|].
  rewrite capitalize_first_cons. simpl. rewrite isspace_upper. tauto.
Qed.

Lemma capitalize_first_stable s :
  stable match_ender_upper s -> stable match_ender_upper (capitalize_first s).
Proof.
  destruct s as [|c rest]; [tauto|].
  rewrite capitalize_first_cons. intros [H1 H2]. split; [|exact H2].
  unfold upper. destruct (islower c) eqn:Hc; [|exact H1].
  rewrite match_ender_upper_cons.
  destruct (char_classes c) as (_ & _ & _ & _ & _ & He & _).
  rewrite Hc in He. unfold upper in He. rewrite Hc in He. simpl in He.
  rewrite He. exact I.
Qed.

(** ** The post-processor *)

Lemma ensure_sentence_end_spec s :
  (s = EmptyString /\ ensure_sentence_end s = EmptyString) \/
  (s <> EmptyString /\ ends_with_ender (ensure_sentence_end s) = true).
Proof.
  unfold ensure_sentence_end. destruct s as [|c s]; [left; auto|].
  right. split; [discriminate|].
  change (String c s =? "")%string with false. cbn [negb andb].
  destruct (ends_with_ender (String c s)) eqn:E; [exact E|].
  cbn [negb]. rewrite ends_with_ender_last, last_char_app_char. reflexivity.
Qed.

Lemma ensure_sentence_end_fixed s :
  s = EmptyString \/ ends_with_ender s = true -> ensure_sentence_end s = s.
Proof.
  unfold ensure_sentence_end. intros [-> | H]; [reflexivity|].
  rewrite H, andb_false_r. reflexivity.
Qed.

Lemma ends_with_ender_nonempty s :
  ends_with_ender s = true -> s <> EmptyString.
Proof. intros H ->. discriminate H. Qed.

(** What the post-processor returns: a text that is empty only when the
    input is, that ends a sentence, and on which each of the four steps has
    nothing left to do. *)
Lemma post_process_text_normal s :
  let t := _post_process_text s in
  (s = EmptyString -> t = EmptyString) /\
  (s <> EmptyString -> ends_with_ender t = true) /\
  no_space_punct t = true /\
  stable match_ender_upper t /\
  capitalize_first t = t.
Proof.
  unfold _post_process_text. cbv zeta.
  split; [|split; [|split; [|split]]].
  - intros ->. reflexivity.
  - intros Hs. rewrite capitalize_first_ender, ends_with_ender_last.
    rewrite sub_ender_upper_last_char, sub_space_punct_last_char.
    rewrite <- ends_with_ender_last.
    destruct (ensure_sentence_end_spec s) as [[H _]|[_ H]];
      [contradiction | exact H].
  - apply capitalize_first_clean, sub_ender_upper_clean,
      sub_space_punct_clean.
  - apply capitalize_first_stable, sub_ender_upper_stable.
  - apply capitalize_first_idempotent.
Qed.

Lemma post_process_text_fixed s :
  _post_process_text (_post_process_text s) = _post_process_text s.
Proof.
  destruct (post_process_text_normal s) as (He & Hn & Hc & Hst & Hcap).
  cbv zeta in *. set (t := _post_process_text s) in *.
  unfold _post_process_text at 1. cbv zeta.
  rewrite (ensure_sentence_end_fixed t).
  - rewrite (re_sub_stable _ match_space_punct_shrinks t)
      by (apply no_space_punct_stable, Hc).
    rewrite (re_sub_stable _ match_ender_upper_shrinks t) by exact Hst.
    exact Hcap.
  - destruct s as [|c s]; [left; apply He; reflexivity|].
    right. apply Hn. discriminate.
Qed.

Lemma concat_nonempty sep start ext :
  start <> EmptyString -> String.concat sep (start :: ext) <> EmptyString.
Proof.
  intros Hs. destruct start as [|c start]; [contradiction|].
  destruct ext; simpl; discriminate.
Qed.

Lemma generate_synopsis_self max_length min_length w :
  self (snd (generate_synopsis max_length min_length w)) = self w.
Proof.
  unfold generate_synopsis, bind, get_self.
  destruct (bigrams (self w)); [reflexivity|].
  destruct (sample_walk_spec max_length min_length w)
    as (start & ext & r & w' & Hw & Hself & _).
  rewrite Hw. exact Hself.
Qed.

Lemma random_choice_singleton x w :
  random_choice [x] w =
  (Return x, mkWorld (self w) (fun n => draws w (S n))).
Proof.
  unfold random_choice. cbn [List.length].
  rewrite Nat.mod_1_r. reflexivity.
Qed.

(** ** The functions on sample inputs *)

Example tokenize_text_example :
  _tokenize_text "  The cat   sat.
 The dog ran. " = ["The"; "cat"; "sat."; "The"; "dog"; "ran."].
Proof. vm_compute. reflexivity. Qed.

Example post_process_text_example1 :
  _post_process_text "hello  .World ,x?Yes" = "Hello. World,x? Yes.".
Proof. vm_compute. reflexivity. Qed.

Example post_process_text_example2 :
  _post_process_text " . .A" = ".. A.".
Proof. vm_compute. reflexivity. Qed.

Example post_process_text_example3 :
  _post_process_text "x?.A  ;" = "X?. A;.".
Proof. vm_compute. reflexivity. Qed.

Example post_process_text_example4 : _post_process_text " a" = " a.".
Proof. vm_compute. reflexivity. Qed.

Example generate_synopsis_example :
  fst (generate_synopsis 10 1
         (mkWorld (load_training_data "The cat sat. The dog ran." init)
                  (fun n => n))) = Return "The dog ran.".
Proof. vm_compute. reflexivity. Qed.

(** * The claims *)

(** C1, as stated, fails: a generator trained on ["The cat sat."] and then
    on ["The dog ran."] is not the generator trained on ["The dog ran."]
    alone; the entries of the first corpus stay. *)
Lemma retraining_keeps_first_corpus :
  load_training_data "The dog ran."
    (load_training_data "The cat sat." init)
  <> load_training_data "The dog ran." init.
Proof. vm_compute. discriminate. Qed.

(** C1, amended: [load_training_data] adds to the model.  After training on
    [T1] and then on [T2], the successor list of every key is its list from
    [T1] followed by its list from [T2] alone, and the starter pool is the
    pool of [T1] followed by the pool of [T2] alone. *)
Theorem retraining_accumulates (T1 T2 : string) :
  let g1 := load_training_data T1 init in
  let g2 := load_training_data T2 init in
  let g12 := load_training_data T2 g1 in
  (forall k,
     dd_get (bigrams g12) k [] =
     dd_get (bigrams g1) k [] ++ dd_get (bigrams g2) k []) /\
  sentence_starters g12 = sentence_starters g1 ++ sentence_starters g2.
Proof.
  cbv zeta. unfold load_training_data at 1 3 4 6.
  apply train_words_accumulates.
Qed.

(** C3 at the last position: in ["It ends. Fin"] the token ["Fin"] is
    capitalized and follows ["ends."], yet it is not in the starter pool:
    the loop of [load_training_data] stops one token short. *)
Theorem last_token_is_no_starter :
  let words := _tokenize_text "It ends. Fin" in
  words = ["It"; "ends."; "Fin"] /\
  ends_with_ender (nth 1 words EmptyString) = true /\
  starts_upper (nth 2 words EmptyString) = true /\
  sentence_starters (load_training_data "It ends. Fin" init) = ["It"].
Proof. vm_compute. repeat split. Qed.

(** C9: training a new generator on ["The cat sat. The dog ran."] gives the
    key ["The"] the successors ["cat"], ["dog"] in this order, and a starter
    pool that holds ["The"] twice. *)
Theorem scenario_the_cat_sat :
  let g := load_training_data "The cat sat. The dog ran." init in
  dd_lookup (bigrams g) "The" = Some ["cat"; "dog"] /\
  sentence_starters g = ["The"; "The"] /\
  count_occ string_dec (sentence_starters g) "The" = 2.
Proof. vm_compute. repeat split. Qed.

(** C5: on an empty transition table [generate_synopsis] returns the fixed
    text ["No training data available."]; it does not raise and changes
    nothing, whatever the two lengths. *)
Theorem generate_synopsis_empty_table (max_length min_length : Z) (w : world) :
  bigrams (self w) = [] ->
  generate_synopsis max_length min_length w =
    (Return "No training data available.", w).
Proof.
  intros H. unfold generate_synopsis, bind, get_self. rewrite H. reflexivity.
Qed.

(** C5 after training on the empty text. *)
Lemma generate_synopsis_empty_table_witness :
  bigrams (self (mkWorld (load_training_data "" init) (fun n => n))) = [] /\
  generate_synopsis 100 20
    (mkWorld (load_training_data "" init) (fun n => n)) =
    (Return "No training data available.",
     mkWorld (load_training_data "" init) (fun n => n)).
Proof.
  split; [reflexivity|].
  apply (generate_synopsis_empty_table 100 20). reflexivity.
Defined.

(** C4: for [max_length >= 1] the sampler returns a token sequence, start
    word included, of at most [max_length] tokens, on every model and for
    every [min_length]. *)
Theorem walk_length_bounded (max_length min_length : Z) (w : world) :
  (1 <= max_length)%Z ->
  exists synopsis r w',
    sample_walk max_length min_length w = (Return (synopsis, r), w') /\
    (Z.of_nat (List.length synopsis) <= max_length)%Z.
Proof.
  intros Hmax.
  destruct (sample_walk_spec max_length min_length w)
    as (start & ext & r & w' & Hw & _ & _ & Hlen & _).
  exists (start :: ext), r, w'. split; [exact Hw|].
  simpl List.length. lia.
Qed.

Lemma walk_length_bounded_witness :
  (1 <= 10)%Z /\
  exists synopsis r w',
    sample_walk 10 1
      (mkWorld (load_training_data "The cat sat. The dog ran." init)
               (fun n => n)) = (Return (synopsis, r), w') /\
    (Z.of_nat (List.length synopsis) <= 10)%Z.
Proof.
  split; [lia|]. apply (walk_length_bounded 10 1). lia.
Defined.

(** C7: the walk stops on a sentence end only when the synopsis has at
    least [min_length] tokens; a walk that returns fewer than [min_length]
    and fewer than [max_length] tokens stopped on a dead end, at a word
    without successors. *)
Theorem stop_respects_min_length (max_length min_length : Z) (w : world) :
  exists synopsis r w',
    sample_walk max_length min_length w = (Return (synopsis, r), w') /\
    (r = NaturalEnd -> (min_length <= Z.of_nat (List.length synopsis))%Z) /\
    ((Z.of_nat (List.length synopsis) < min_length)%Z ->
     (Z.of_nat (List.length synopsis) < max_length)%Z ->
     r = DeadEnd /\
     dd_get (bigrams (self w)) (last synopsis EmptyString) [] = []).
Proof.
  destruct (sample_walk_spec max_length min_length w)
    as (start & ext & r & w' & Hw & _ & _ & Hlen & Hex & Hnat & Hdead & _).
  exists (start :: ext), r, w'. split; [exact Hw|].
  simpl List.length. split.
  - intros Hr. destruct (Hnat Hr) as [H _]. lia.
  - intros Hmin Hmax. destruct r.
    + split; [reflexivity | apply Hdead; reflexivity].
    + destruct (Hnat eq_refl) as [H _]. lia.
    + specialize (Hex eq_refl). lia.
Qed.

(** C6: each operation of the object leaves every key of the transition
    table with at least one successor, if that held before. *)
Theorem operations_keep_successors (op : operation) (w : world) :
  successors_nonempty (bigrams (self w)) ->
  successors_nonempty (bigrams (self (run op w))).
Proof.
  intros H. destruct op as [text | max_length min_length | | sample_size].
  - apply train_words_successors_nonempty, H.
  - simpl. rewrite generate_synopsis_self. exact H.
  - exact H.
  - exact H.
Qed.

Lemma operations_keep_successors_witness :
  successors_nonempty (bigrams (self (mkWorld init (fun n => n)))) /\
  successors_nonempty
    (bigrams (self (run (Load "The cat sat. The dog ran.")
                        (mkWorld init (fun n => n))))).
Proof.
  split; [constructor|].
  apply (operations_keep_successors (Load "The cat sat. The dog ran.")).
  constructor.
Defined.

(** C8: the post-processor is idempotent: applied to its own result, on any
    text and so on the joined tokens of any synopsis, it returns that
    result. *)
Theorem post_process_text_idempotent :
  (forall text : string,
     _post_process_text (_post_process_text text) = _post_process_text text) /\
  (forall synopsis : list string,
     let result := String.concat " " synopsis in
     _post_process_text (_post_process_text result) =
     _post_process_text result).
Proof.
  split; intros; apply post_process_text_fixed.
Qed.

(** Trained on ["He ran. fast"], with [max_length = 5] and
    [min_length = 2], the walk appends ["ran."] and has then two tokens, the
    last one ending a sentence; it does not stop there but goes on to
    ["fast"], on every random stream. *)
Lemma walk_he_ran_fast (stream : nat -> nat) :
  let w := mkWorld (load_training_data "He ran. fast" init) stream in
  fst (sample_walk 5 2 w) = Return (["He"; "ran."; "fast"], DeadEnd) /\
  ends_with_ender "ran." = true /\
  fst (generate_synopsis 5 2 w) = Return "He ran. fast.".
Proof.
  cbv zeta.
  assert (Hg : load_training_data "He ran. fast" init =
               mkGenerator [("He", ["ran."]); ("ran.", ["fast"])] ["He"])
    by (vm_compute; reflexivity).
  rewrite Hg. clear Hg.
  assert (Hw : sample_walk 5 2
                 (mkWorld (mkGenerator [("He", ["ran."]); ("ran.", ["fast"])]
                                       ["He"]) stream) =
               (Return (["He"; "ran."; "fast"], DeadEnd),
                mkWorld (mkGenerator [("He", ["ran."]); ("ran.", ["fast"])]
                                     ["He"])
                        (fun n => stream (S (S (S n)))))).
  { unfold sample_walk, _choose_starting_word, bind at 1 2, get_self.
    cbn [self sentence_starters]. rewrite random_choice_singleton.
    change (Z.to_nat (5 - 1)) with 4.
    rewrite walk_S. cbn [self bigrams draws].
    change (dd_get [("He", ["ran."]); ("ran.", ["fast"])] "He" [])
      with ["ran."].
    cbv beta iota. rewrite random_choice_singleton. cbn [self bigrams draws].
    change ((0 >=? 2 - 1)%Z && ends_with_ender "ran.") with false.
    cbv iota. rewrite walk_S. cbn [self bigrams draws].
    change (dd_get [("He", ["ran."]); ("ran.", ["fast"])] "ran." [])
      with ["fast"].
    cbv beta iota. rewrite random_choice_singleton. cbn [self bigrams draws].
    change ((0 + 1 >=? 2 - 1)%Z && ends_with_ender "fast") with false.
    cbv iota. rewrite walk_S. cbn [self bigrams draws].
    change (dd_get [("He", ["ran."]); ("ran.", ["fast"])] "fast" [])
      with (@nil string).
    reflexivity. }
  split; [rewrite Hw; reflexivity|]. split; [reflexivity|].
  unfold generate_synopsis, bind at 1 2, get_self. cbn [self bigrams].
  rewrite Hw. vm_compute. reflexivity.
Qed.

(** C2, as stated, fails: with [min_length = 2] the walk on the model of
    ["He ran. fast"] reaches two tokens with ["ran."], which ends a
    sentence, and still appends ["fast"]. *)
Lemma stop_at_min_length_fails :
  exists synopsis r w',
    sample_walk 5 2
      (mkWorld (load_training_data "He ran. fast" init) (fun n => n)) =
      (Return (synopsis, r), w') /\
    ~ stops_at_sentence_end 2 synopsis.
Proof.
  destruct (sample_walk 5 2
              (mkWorld (load_training_data "He ran. fast" init) (fun n => n)))
    as [[[synopsis r]|e] w'] eqn:E;
    pose proof (walk_he_ran_fast (fun n => n)) as [H _];
    cbv zeta in H; rewrite E in H; simpl in H; [|discriminate].
  inversion H; subst. exists ["He"; "ran."; "fast"], DeadEnd, w'.
  split; [reflexivity|]. intros Hstop.
  specialize (Hstop 1). simpl in Hstop.
  assert (Hf : ends_with_ender "ran." = false) by (apply Hstop; lia).
  discriminate Hf.
Qed.

(** C2, amended: the walk stops as soon as the synopsis, start word
    included, has at least [min_length + 1] tokens and the token just
    appended ends in one of the sentence enders; no further token is
    appended.  (The loop tests its index against [min_length - 1], and the
    synopsis is two tokens longer than the index.) *)
Theorem stop_after_min_length (max_length min_length : Z) (w : world) :
  exists synopsis r w',
    sample_walk max_length min_length w = (Return (synopsis, r), w') /\
    stops_at_sentence_end (min_length + 1) synopsis.
Proof.
  destruct (sample_walk_spec max_length min_length w)
    as (start & ext & r & w' & Hw & _ & _ & _ & _ & _ & _ & Hstop).
  exists (start :: ext), r, w'. split; [exact Hw | exact Hstop].
Qed.

(** C10: on every generator a program can hold, trained or not, and for
    [max_length >= 1] and [min_length >= 0], [generate_synopsis] returns a
    text that is not empty and whose last character is a sentence ender. *)
Theorem generate_synopsis_ends_sentence
    (g : generator) (stream : nat -> nat) (max_length min_length : Z) :
  reachable g -> (1 <= max_length)%Z -> (0 <= min_length)%Z ->
  exists text w',
    generate_synopsis max_length min_length (mkWorld g stream) =
      (Return text, w') /\
    text <> EmptyString /\
    exists c, last_char text = Some c /\ In c sentence_enders.
Proof.
  intros Hg _ _.
  assert (Hend : forall t, ends_with_ender t = true ->
            t <> EmptyString /\
            exists c, last_char t = Some c /\ In c sentence_enders).
  { intros t Ht. split; [apply ends_with_ender_nonempty, Ht|].
    rewrite ends_with_ender_last in Ht.
    destruct (last_char t) as [c|]; [|discriminate].
    exists c. split; [reflexivity|].
    unfold is_ender in Ht. apply existsb_exists in Ht.
    destruct Ht as (x & Hin & Hx). apply Ascii.eqb_eq in Hx.
    subst x. exact Hin. }
  unfold generate_synopsis, bind at 1, get_self. cbn [self].
  destruct (bigrams g) as [|b0 bs] eqn:Hb.
  - exists no_training_data, (mkWorld g stream).
    split; [reflexivity|]. apply Hend. reflexivity.
  - destruct (sample_walk_spec max_length min_length (mkWorld g stream))
      as (start & ext & r & w' & Hw & _ & Hin & _).
    unfold bind. rewrite Hw. unfold ret. cbn [fst self] in *.
    eexists _, _. split; [reflexivity|].
    apply Hend. apply post_process_text_normal.
    apply concat_nonempty.
    destruct (reachable_tokens_nonempty g Hg) as [Hs Hk].
    rewrite Forall_forall in Hs, Hk.
    destruct Hin as [Hin|[Hin| ->]]; [apply Hs, Hin | apply Hk, Hin |].
    discriminate.
Qed.

Lemma generate_synopsis_ends_sentence_witness :
  reachable (load_training_data "The cat sat. The dog ran." init) /\
  (1 <= 10)%Z /\ (0 <= 1)%Z /\
  exists text w',
    generate_synopsis 10 1
      (mkWorld (load_training_data "The cat sat. The dog ran." init)
               (fun n => n)) = (Return text, w') /\
    text <> EmptyString /\
    exists c, last_char text = Some c /\ In c sentence_enders.
Proof.
  split; [apply reachable_load, reachable_init|].
  split; [lia|]. split; [lia|].
  apply generate_synopsis_ends_sentence;
    [apply reachable_load, reachable_init | lia | lia].
Defined.

(** * Further properties of the code *)

(** ** The tokenizer *)

Lemma has_no_space_app_char cur c :
  has_no_space cur = true -> isspace c = false ->
  has_no_space (cur ++ String c EmptyString) = true.
Proof.
  intros Hcur Hc. induction cur as [|d cur IH]; simpl in *.
  - rewrite Hc. reflexivity.
  - apply andb_prop in Hcur. destruct Hcur as [Hd Hcur].
    rewrite Hd, (IH Hcur). reflexivity.
Qed.

Lemma split_from_words s : forall cur,
  has_no_space cur = true -> Forall is_word (split_from cur s).
Proof.
  induction s as [|c s IH]; intros cur Hcur; simpl.
  - destruct cur; constructor; [|constructor].
    split; [discriminate | exact Hcur].
  - destruct (isspace c) eqn:Hc.
    + destruct cur as [|d cur]; [apply IH; reflexivity|].
      constructor; [|apply IH; reflexivity].
      split; [discriminate | exact Hcur].
    + apply IH, has_no_space_app_char; assumption.
Qed.

Lemma split_lstrip s : split (lstrip s) = split s.
Proof.
  unfold split. induction s as [|c s IH]; [reflexivity|].
  simpl. destruct (isspace c) eqn:Hc; [exact IH|].
  simpl. rewrite Hc. reflexivity.
Qed.

Lemma split_from_rstrip s : forall cur,
  split_from cur (rstrip s) = split_from cur s.
Proof.
  induction s as [|c s IH]; intros cur; [reflexivity|].
  simpl rstrip. destruct (rstrip s) as [|d r] eqn:Hr.
  - destruct (isspace c) eqn:Hc; simpl; rewrite Hc.
    + rewrite <- (IH EmptyString). destruct cur; reflexivity.
    + rewrite <- IH. reflexivity.
  - change (split_from cur (String c (String d r)) =
            split_from cur (String c s)).
    cbn [split_from]. destruct (isspace c).
    + rewrite <- (IH EmptyString). reflexivity.
    + rewrite <- IH. reflexivity.
Qed.

Lemma match_spaces_shrinks : shrinks match_spaces.
Proof.
  intros s repl rest H. destruct s as [|c s]; [discriminate|].
  simpl in H. destruct (isspace c); [|discriminate].
  inversion H; subst. pose proof (lstrip_length s).
  unfold skip_spaces. simpl. lia.
Qed.

Lemma split_from_collapse s : forall cur,
  split_from cur (re_sub match_spaces s) = split_from cur s.
Proof.
  induction s as [s IH] using string_length_ind. intros cur.
  rewrite (re_sub_unfold _ s match_spaces_shrinks).
  destruct s as [|c s]; [reflexivity|].
  cbn [match_spaces]. destruct (isspace c) eqn:Hc.
  - change (" " ++ re_sub match_spaces (skip_spaces s))%string
      with (String " " (re_sub match_spaces (skip_spaces s))).
    cbn [split_from]. rewrite Hc.
    change (isspace " ") with true. cbv iota.
    unfold skip_spaces. rewrite IH.
    + fold (split (lstrip s)). rewrite split_lstrip. reflexivity.
    + pose proof (lstrip_length s). simpl. lia.
  - cbn [split_from]. rewrite Hc. apply IH. simpl. lia.
Qed.

Lemma tokenize_text_split text : _tokenize_text text = split text.
Proof.
  unfold _tokenize_text, split, strip.
  rewrite split_from_collapse, split_from_rstrip.
  apply split_lstrip.
Qed.

Lemma string_app_empty w : (w ++ "")%string = w.
Proof. induction w as [|d w IH]; simpl; [|rewrite IH]; reflexivity. Qed.

Lemma split_from_word w : forall cur rest,
  has_no_space w = true ->
  split_from cur (w ++ rest) = split_from (cur ++ w) rest.
Proof.
  induction w as [|c w IH]; intros cur rest Hw.
  - simpl. rewrite string_app_empty. reflexivity.
  - simpl in Hw. apply andb_prop in Hw. destruct Hw as [Hc Hw].
    apply negb_true_iff in Hc. simpl. rewrite Hc, (IH _ _ Hw).
    rewrite app_assoc_string_char. reflexivity.
Qed.

Lemma split_join words :
  Forall is_word words -> split (String.concat " " words) = words.
Proof.
  unfold split. induction 1 as [|w ws [Hne Hw] Hws IH]; [reflexivity|].
  destruct ws as [|w' ws].
  - simpl. rewrite <- (string_app_empty w) at 1.
    rewrite (split_from_word w EmptyString EmptyString Hw).
    destruct w; [contradiction | reflexivity].
  - change (String.concat " " (w :: w' :: ws))
      with (w ++ String " " (String.concat " " (w' :: ws)))%string.
    rewrite (split_from_word w EmptyString _ Hw).
    change (EmptyString ++ w)%string with w.
    cbn [split_from]. change (isspace " ") with true. cbv iota.
    rewrite IH. destruct w; [contradiction | reflexivity].
Qed.

(** X1: every token is a word: it is not empty and holds no white space. *)
Theorem tokenize_text_words (text : string) :
  Forall is_word (_tokenize_text text).
Proof. apply split_from_words. reflexivity. Qed.

(** X2: stripping the text and collapsing its white space change nothing:
    the tokens are the maximal runs without white space of the text as it
    was given. *)
Theorem tokenize_text_only_splits (text : string) :
  _tokenize_text text = split text.
Proof. apply tokenize_text_split. Qed.

(** X3: words joined by single spaces are tokenized back into themselves. *)
Theorem tokenize_join_round_trip (words : list string) :
  Forall is_word words ->
  _tokenize_text (String.concat " " words) = words.
Proof.
  intros H. rewrite tokenize_text_split. apply split_join, H.
Qed.

Lemma tokenize_join_round_trip_witness :
  Forall is_word ["The"; "cat"; "sat."] /\
  _tokenize_text (String.concat " " ["The"; "cat"; "sat."]) =
  ["The"; "cat"; "sat."].
Proof.
  assert (H : Forall is_word ["The"; "cat"; "sat."]).
  { repeat constructor; discriminate. }
  split; [exact H|]. apply (tokenize_join_round_trip _ H).
Defined.

(** ** The trainer *)

Lemma train_loop_get words k : forall l g,
  dd_get (bigrams (fold_left (train_step words) l g)) k [] =
  dd_get (bigrams g) k [] ++
  flat_map (fun i => if (nth i words EmptyString =? k)%string
                     then [nth (i + 1) words EmptyString] else []) l.
Proof.
  induction l as [|i l IH]; intros g; simpl.
  - rewrite app_nil_r. reflexivity.
  - rewrite IH, bigrams_train_step, dd_get_append.
    destruct (String.eqb_spec (nth i words EmptyString) k) as [E|N].
    + rewrite <- E, <- app_assoc. reflexivity.
    + reflexivity.
Qed.

Lemma flat_map_shift {A : Type} (f : nat -> list A) l :
  flat_map f (map S l) = flat_map (fun i => f (S i)) l.
Proof. induction l as [|i l IH]; simpl; [|rewrite IH]; reflexivity. Qed.

Lemma pairs_followers k : forall words,
  flat_map (fun i => if (nth i words EmptyString =? k)%string
                     then [nth (i + 1) words EmptyString] else [])
           (seq 0 (List.length words - 1)) =
  followers k words.
Proof.
  induction words as [|a ws IH]; [reflexivity|].
  destruct ws as [|b tl]; [reflexivity|].
  change (List.length (a :: b :: tl) - 1) with (S (List.length tl)).
  cbn [seq flat_map]. rewrite <- seq_shift, flat_map_shift.
  rewrite (flat_map_ext _
             (fun i => if (nth i (b :: tl) EmptyString =? k)%string
                       then [nth (i + 1) (b :: tl) EmptyString] else []))
    by (intros i; reflexivity).
  replace (List.length tl) with (List.length (b :: tl) - 1)
    by (simpl; lia).
  rewrite IH.
  change (followers k (a :: b :: tl))
    with (if (a =? k)%string then b :: followers k (b :: tl)
          else followers k (b :: tl)).
  cbn [nth Nat.add]. destruct (a =? k)%string; reflexivity.
Qed.

Lemma train_words_get words g k :
  dd_get (bigrams (train_words words g)) k [] =
  dd_get (bigrams g) k [] ++ followers k words.
Proof.
  rewrite <- pairs_followers, <- train_loop_get.
  unfold train_words.
  generalize (fold_left (train_step words) (seq 0 (List.length words - 1)) g).
  intros g1. destruct words as [|w0 ws]; [reflexivity|].
  destruct (starts_upper w0); reflexivity.
Qed.

Lemma followers_adjacent a b : forall words,
  In b (followers a words) <-> adjacent a b words.
Proof.
  induction words as [|x ws IH].
  - split; [intros []|]. intros (l1 & l2 & H). destruct l1; discriminate.
  - destruct ws as [|y tl].
    + split; [intros []|]. intros (l1 & l2 & H).
      destruct l1 as [|? [|? ?]]; discriminate.
    + cbn [followers]. split.
      * intros H.
        assert (Hcase : (x = a /\ b = y) \/ In b (followers a (y :: tl))).
        { destruct (String.eqb_spec x a) as [E|N].
          - destruct H as [H|H]; [left; auto | right; exact H].
          - right. exact H. }
        destruct Hcase as [[-> ->]|Hin].
        -- exists [], tl. reflexivity.
        -- apply IH in Hin. destruct Hin as (l1 & l2 & Hl).
           exists (x :: l1), l2. rewrite Hl. reflexivity.
      * intros (l1 & l2 & Hl). destruct l1 as [|x' l1].
        -- inversion Hl; subst. rewrite String.eqb_refl. left. reflexivity.
        -- inversion Hl; subst x'.
           assert (Hin : In b (followers a (y :: tl))).
           { apply IH. exists l1, l2. assumption. }
           destruct (x =? a)%string; [right|]; exact Hin.
Qed.

(** X4: after training, the successor list of a key is what it was,
    followed by the tokens that come right after the occurrences of the key
    in the text, in the order of the text. *)
Theorem successors_are_followers (text : string) (g : generator) (k : string) :
  dd_get (bigrams (load_training_data text g)) k [] =
  dd_get (bigrams g) k [] ++ followers k (_tokenize_text text).
Proof. apply train_words_get. Qed.

Lemma dd_lookup_none d k : dd_lookup d k = None -> ~ In k (keys d).
Proof.
  induction d as [|[k0 v0] d IH]; simpl; [tauto|].
  destruct (String.eqb_spec k0 k) as [E|N]; [discriminate|].
  intros H [Hk|Hk]; [contradiction | exact (IH H Hk)].
Qed.

Lemma keys_dd_append_new d k x :
  dd_lookup d k = None -> keys (dd_append d k x) = keys d ++ [k].
Proof.
  intros H. unfold dd_append, dd_getitem. rewrite H, keys_dd_store.
  unfold keys. rewrite map_app. reflexivity.
Qed.

Lemma keys_dd_append_old d k x v :
  dd_lookup d k = Some v -> keys (dd_append d k x) = keys d.
Proof.
  intros H. unfold dd_append, dd_getitem. rewrite H. apply keys_dd_store.
Qed.

Lemma dd_lookup_some d k v : dd_lookup d k = Some v -> In k (keys d).
Proof.
  induction d as [|[k0 v0] d IH]; simpl; [discriminate|].
  destruct (String.eqb_spec k0 k) as [E|N]; [left; exact E|].
  intros H. right. exact (IH H).
Qed.

Lemma dd_append_keys_unique d k x :
  NoDup (keys d) -> NoDup (keys (dd_append d k x)).
Proof.
  intros Hd. destruct (dd_lookup d k) as [v|] eqn:Hk.
  - rewrite (keys_dd_append_old d k x v Hk). exact Hd.
  - rewrite (keys_dd_append_new d k x Hk).
    apply NoDup_app; [exact Hd | repeat constructor; intros [] |].
    intros a Ha [E|[]]. subst a. exact (dd_lookup_none d k Hk Ha).
Qed.

Lemma dd_append_keys_In d k x k' :
  In k' (keys (dd_append d k x)) <-> In k' (keys d) \/ k' = k.
Proof.
  split; [apply keys_dd_append|].
  destruct (dd_lookup d k) as [v|] eqn:Hk.
  - rewrite (keys_dd_append_old d k x v Hk).
    intros [H| ->]; [exact H | exact (dd_lookup_some d k v Hk)].
  - rewrite (keys_dd_append_new d k x Hk). intros [H| ->].
    + apply in_or_app. left. exact H.
    + apply in_or_app. right. left. reflexivity.
Qed.

Lemma train_words_bigrams words g :
  bigrams (train_words words g) =
  bigrams (fold_left (train_step words) (seq 0 (List.length words - 1)) g).
Proof.
  unfold train_words.
  generalize (fold_left (train_step words) (seq 0 (List.length words - 1)) g).
  intros g1. destruct words as [|w0 ws]; [reflexivity|].
  destruct (starts_upper w0); reflexivity.
Qed.

Lemma train_words_keys_unique words g :
  NoDup (keys (bigrams g)) -> NoDup (keys (bigrams (train_words words g))).
Proof.
  intros Hg. rewrite train_words_bigrams.
  apply (fold_left_invariant (fun g => NoDup (keys (bigrams g)))
                             (fun _ => True)).
  - intros a i Ha _. rewrite bigrams_train_step.
    apply dd_append_keys_unique, Ha.
  - apply Forall_forall. intros; exact I.
  - exact Hg.
Qed.

(** In the model, the transition table never holds a key twice. *)
Lemma reachable_keys_unique (g : generator) :
  reachable g -> NoDup (keys (bigrams g)).
Proof.
  induction 1 as [|text g _ IH].
  - constructor.
  - apply train_words_keys_unique, IH.
Qed.

Lemma train_loop_keys words k : forall l g,
  In k (keys (bigrams (fold_left (train_step words) l g))) <->
  In k (keys (bigrams g)) \/
  exists i, In i l /\ nth i words EmptyString = k.
Proof.
  induction l as [|i l IH]; intros g; simpl.
  - split; [auto|]. intros [H|(i & [] & _)]. exact H.
  - rewrite IH, bigrams_train_step, dd_append_keys_In. split.
    + intros [[H|H]|(j & Hj & Hk)]; [auto | |].
      * right. exists i. auto.
      * right. exists j. auto.
    + intros [H|(j & [Hj|Hj] & Hk)]; [auto | |].
      * left. right. subst. reflexivity.
      * right. exists j. auto.
Qed.

Lemma removelast_nth (words : list string) k :
  In k (removelast words) <->
  exists i, In i (seq 0 (List.length words - 1)) /\
            nth i words EmptyString = k.
Proof.
  rewrite removelast_firstn_len.
  replace (pred (List.length words)) with (List.length words - 1) by lia.
  set (n := List.length words - 1). split.
  - intros H. apply (In_nth _ _ EmptyString) in H.
    destruct H as (i & Hi & Hk). rewrite length_firstn in Hi.
    rewrite nth_firstn in Hk.
    assert (Hlt : i < n) by lia. apply Nat.ltb_lt in Hlt as Hb.
    rewrite Hb in Hk. exists i. split; [apply in_seq; lia | exact Hk].
  - intros (i & Hi & Hk). apply in_seq in Hi.
    assert (Hb : (i <? n) = true) by (apply Nat.ltb_lt; lia).
    rewrite <- Hk.
    replace (nth i words EmptyString)
      with (nth i (firstn n words) EmptyString)
      by (rewrite nth_firstn, Hb; reflexivity).
    apply nth_In. rewrite length_firstn. subst n. lia.
Qed.

(** X5: the keys of the table after training are the keys it had and the
    tokens of the text other than the last one. *)
Theorem keys_are_nonfinal_tokens (text : string) (g : generator) (k : string) :
  In k (keys (bigrams (load_training_data text g))) <->
  In k (keys (bigrams g)) \/ In k (removelast (_tokenize_text text)).
Proof.
  unfold load_training_data.
  rewrite train_words_bigrams, train_loop_keys, removelast_nth. reflexivity.
Qed.

Lemma train_words_keys_In words g k :
  In k (keys (bigrams (train_words words g))) <->
  In k (keys (bigrams g)) \/ In k (removelast words).
Proof.
  rewrite train_words_bigrams, train_loop_keys, removelast_nth. reflexivity.
Qed.

Lemma transitions_app_last d k v :
  transitions (d ++ [(k, v)]) = transitions d + List.length v.
Proof.
  unfold transitions, values. rewrite map_app, map_app, list_sum_app.
  simpl. lia.
Qed.

Lemma transitions_dd_store d k v v' :
  dd_lookup d k = Some v ->
  transitions (dd_store d k v') + List.length v =
  transitions d + List.length v'.
Proof.
  unfold transitions, values.
  induction d as [|[k0 v0] d IH]; simpl; [discriminate|].
  destruct (k0 =? k)%string.
  - intros H. inversion H; subst. simpl. lia.
  - intros H. specialize (IH H). simpl. lia.
Qed.

Lemma transitions_dd_append d k x :
  transitions (dd_append d k x) = S (transitions d).
Proof.
  unfold dd_append, dd_getitem.
  destruct (dd_lookup d k) as [v|] eqn:Hk.
  - pose proof (transitions_dd_store d k v (v ++ [x]) Hk) as H.
    rewrite length_app in H. simpl in H. lia.
  - rewrite dd_store_new by exact Hk.
    rewrite transitions_app_last. simpl. lia.
Qed.

Lemma train_loop_transitions words : forall l g,
  transitions (bigrams (fold_left (train_step words) l g)) =
  transitions (bigrams g) + List.length l.
Proof.
  induction l as [|i l IH]; intros g; simpl; [lia|].
  rewrite IH, bigrams_train_step, transitions_dd_append. lia.
Qed.

Lemma train_words_transitions words g :
  transitions (bigrams (train_words words g)) =
  transitions (bigrams g) + (List.length words - 1).
Proof.
  rewrite train_words_bigrams, train_loop_transitions, length_seq.
  reflexivity.
Qed.

(** X6: [get_stats] returns without raising and leaves the object as it is;
    training on a text raises the count of transitions it reports by the
    number of adjacent token pairs of the text, one less than the number of
    tokens. *)
Theorem training_counts_pairs (text : string) (w : world) :
  exists st st',
    get_stats w = (Return st, w) /\
    get_stats (run (Load text) w) = (Return st', run (Load text) w) /\
    total_transitions st' =
    total_transitions st + (List.length (_tokenize_text text) - 1).
Proof.
  eexists _, _. split; [reflexivity|]. split; [reflexivity|].
  cbn [total_transitions]. apply train_words_transitions.
Qed.

Lemma same_members_same_length (l l' : list string) :
  NoDup l -> NoDup l' -> (forall x, In x l <-> In x l') ->
  List.length l = List.length l'.
Proof.
  intros Hl Hl' H. apply Nat.le_antisymm; apply NoDup_incl_length;
    try assumption; intros x Hx; apply H, Hx.
Qed.

(** X7: on a generator trained once, [get_stats] reports as unique words the
    number of distinct tokens other than the last one, as transitions the
    number of tokens less one, and as starters the number of distinct
    entries of the pool. *)
Theorem stats_after_first_training (text : string) (stream : nat -> nat) :
  let words := _tokenize_text text in
  let g := load_training_data text init in
  get_stats (mkWorld g stream) =
  (Return (mkStats
             (List.length (nodup string_dec (removelast words)))
             (List.length words - 1)
             (List.length (nodup string_dec (sentence_starters g)))),
   mkWorld g stream).
Proof.
  cbv zeta. unfold get_stats, bind, get_self, ret. cbn [self].
  f_equal. f_equal. f_equal.
  - unfold load_training_data.
    rewrite <- (length_map fst). fold (keys (bigrams
      (train_words (_tokenize_text text) init))).
    apply same_members_same_length.
    + apply train_words_keys_unique. constructor.
    + apply NoDup_nodup.
    + intros k. rewrite train_words_keys_In, nodup_In. simpl. tauto.
  - fold (transitions (bigrams (load_training_data text init))).
    unfold load_training_data. rewrite train_words_transitions.
    reflexivity.
Qed.

Lemma successors_nonempty_count d :
  successors_nonempty d -> List.length d <= transitions d.
Proof.
  unfold transitions, values.
  induction 1 as [|[k v] d Hv _ IH]; simpl; [lia|].
  destruct v; [contradiction|]. simpl in *. lia.
Qed.

(** X8: on every generator a program can hold, [get_stats] reports at least
    as many transitions as unique words, and at most as many distinct
    starters as the pool has entries. *)
Theorem stats_are_consistent (w : world) :
  reachable (self w) ->
  exists st,
    get_stats w = (Return st, w) /\
    unique_words st <= total_transitions st /\
    distinct_starters st <= List.length (sentence_starters (self w)).
Proof.
  intros Hg. eexists. split; [reflexivity|]. cbn. split.
  - apply successors_nonempty_count, reachable_successors_nonempty, Hg.
  - apply NoDup_incl_length; [apply NoDup_nodup|].
    intros x Hx. apply nodup_In in Hx. exact Hx.
Qed.

Lemma stats_are_consistent_witness :
  reachable (self (mkWorld (load_training_data "The cat sat. The dog ran."
                                               init) (fun n => n))) /\
  exists st,
    get_stats (mkWorld (load_training_data "The cat sat. The dog ran." init)
                       (fun n => n)) =
      (Return st,
       mkWorld (load_training_data "The cat sat. The dog ran." init)
               (fun n => n)) /\
    unique_words st <= total_transitions st /\
    distinct_starters st <=
      List.length (sentence_starters
                     (self (mkWorld (load_training_data
                                       "The cat sat. The dog ran." init)
                                    (fun n => n)))).
Proof.
  assert (H : reachable
                (self (mkWorld (load_training_data
                                  "The cat sat. The dog ran." init)
                               (fun n => n))))
    by apply reachable_load, reachable_init.
  split; [exact H | exact (stats_are_consistent _ H)].
Defined.

(** X9: a text of at most one token adds no transition; a new generator
    trained on it has an empty table and answers [generate_synopsis] with
    the fallback text, even when its one token is in the starter pool. *)
Theorem short_text_trains_no_transition (text : string) :
  List.length (_tokenize_text text) <= 1 ->
  (forall g, bigrams (load_training_data text g) = bigrams g) /\
  (forall max_length min_length stream,
     generate_synopsis max_length min_length
       (mkWorld (load_training_data text init) stream) =
     (Return "No training data available.",
      mkWorld (load_training_data text init) stream)).
Proof.
  intros Hlen.
  assert (Hb : forall g, bigrams (load_training_data text g) = bigrams g).
  { intros g. unfold load_training_data. rewrite train_words_bigrams.
    replace (List.length (_tokenize_text text) - 1) with 0 by lia.
    reflexivity. }
  split; [exact Hb|]. intros max_length min_length stream.
  unfold generate_synopsis, bind, get_self. cbn [self].
  rewrite Hb. reflexivity.
Qed.

Lemma short_text_trains_no_transition_witness :
  List.length (_tokenize_text "Hello") <= 1 /\
  sentence_starters (load_training_data "Hello" init) = ["Hello"] /\
  generate_synopsis 100 20
    (mkWorld (load_training_data "Hello" init) (fun n => n)) =
  (Return "No training data available.",
   mkWorld (load_training_data "Hello" init) (fun n => n)).
Proof.
  assert (H : List.length (_tokenize_text "Hello") <= 1)
    by (vm_compute; lia).
  split; [exact H|]. split; [reflexivity|].
  exact (proj2 (short_text_trains_no_transition "Hello" H) 100%Z 20%Z
               (fun n => n)).
Defined.

Lemma train_words_starters_upper words g :
  Forall (fun w => starts_upper w = true) (sentence_starters g) ->
  Forall (fun w => starts_upper w = true)
         (sentence_starters (train_words words g)).
Proof.
  intros Hg.
  assert (H : Forall (fun w => starts_upper w = true)
                (sentence_starters
                   (fold_left (train_step words)
                              (seq 0 (List.length words - 1)) g))).
  { apply (fold_left_invariant
             (fun g => Forall (fun w => starts_upper w = true)
                              (sentence_starters g)) (fun _ => True)).
    - intros a i Ha _. rewrite starters_train_step.
      apply Forall_app. split; [exact Ha|].
      destruct ((0 <? i) && _); simpl; [|constructor].
      destruct (starts_upper (nth i words EmptyString)) eqn:Hu;
        constructor; [exact Hu | constructor].
    - apply Forall_forall. intros; exact I.
    - exact Hg. }
  unfold train_words. revert H.
  generalize (fold_left (train_step words) (seq 0 (List.length words - 1)) g).
  intros g1 H. destruct words as [|w0 ws]; [exact H|].
  destruct (starts_upper w0) eqn:Hu; [|exact H].
  simpl. apply Forall_app. split; [exact H|].
  constructor; [exact Hu | constructor].
Qed.

Lemma reachable_starters_upper g :
  reachable g -> Forall (fun w => starts_upper w = true) (sentence_starters g).
Proof.
  induction 1 as [|text g _ IH].
  - constructor.
  - apply train_words_starters_upper, IH.
Qed.

(** X10: every entry of the starter pool begins with an upper-case letter,
    on every generator a program can hold. *)
Theorem starters_are_capitalized (g : generator) :
  reachable g -> Forall (fun w => starts_upper w = true) (sentence_starters g).
Proof. apply reachable_starters_upper. Qed.

Lemma starters_are_capitalized_witness :
  reachable (load_training_data "it is. So be it" init) /\
  Forall (fun w => starts_upper w = true)
         (sentence_starters (load_training_data "it is. So be it" init)).
Proof.
  assert (H : reachable (load_training_data "it is. So be it" init))
    by apply reachable_load, reachable_init.
  split; [exact H | exact (starters_are_capitalized _ H)].
Defined.

(** ** The sampler *)

Lemma chain_snoc d a b : forall pre,
  chain d (pre ++ [a]) -> In b (dd_get d a []) ->
  chain d ((pre ++ [a]) ++ [b]).
Proof.
  induction pre as [|x pre IH]; intros Hc Hb.
  - simpl. auto.
  - destruct pre as [|y pre].
    + simpl in *. tauto.
    + change (chain d (x :: (y :: pre ++ [a]) ++ [b])).
      change (chain d (x :: y :: pre ++ [a])) in Hc.
      cbn [chain] in Hc. destruct Hc as [Hxy Hc].
      change ((y :: pre ++ [a]) ++ [b]) with (y :: (pre ++ [a]) ++ [b]).
      cbn [chain]. split; [exact Hxy|].
      apply (IH Hc Hb).
Qed.

Lemma walk_chain min_length remaining :
  forall i current_word pre w synopsis r w',
    walk min_length remaining i current_word (pre ++ [current_word]) w =
      (Return (synopsis, r), w') ->
    chain (bigrams (self w)) (pre ++ [current_word]) ->
    chain (bigrams (self w)) synopsis.
Proof.
  induction remaining as [|remaining IH];
    intros i cur pre w synopsis r w' Hw Hc.
  - simpl in Hw. unfold ret in Hw. inversion Hw; subst. exact Hc.
  - rewrite walk_S in Hw.
    destruct (dd_get (bigrams (self w)) cur []) as [|x0 xs] eqn:Hnext.
    + inversion Hw; subst. exact Hc.
    + destruct (random_choice_spec (x0 :: xs) w) as (x & Hx & Hin);
        [discriminate|].
      rewrite Hx in Hw. rewrite <- Hnext in Hin.
      pose proof (chain_snoc _ cur x pre Hc Hin) as Hc'.
      destruct ((i >=? min_length - 1)%Z && ends_with_ender x).
      * inversion Hw; subst. exact Hc'.
      * apply (IH _ _ _ _ _ _ _ Hw). exact Hc'.
Qed.

Lemma chain_adjacent d a b : forall synopsis,
  chain d synopsis -> adjacent a b synopsis -> In b (dd_get d a []).
Proof.
  intros synopsis Hc (l1 & l2 & ->). induction l1 as [|x l1 IH].
  - simpl in Hc. apply Hc.
  - apply IH. destruct l1 as [|y l1]; simpl in Hc; apply Hc.
Qed.

Lemma sample_walk_chain max_length min_length w :
  exists synopsis r w',
    sample_walk max_length min_length w = (Return (synopsis, r), w') /\
    chain (bigrams (self w)) synopsis.
Proof.
  destruct (sample_walk_spec max_length min_length w)
    as (start & ext & r & w' & Hw & _).
  exists (start :: ext), r, w'. split; [exact Hw|].
  unfold sample_walk, bind in Hw.
  destruct (choose_starting_word_spec w) as (x & w1 & Hc & Hs1 & _).
  rewrite Hc in Hw. rewrite <- Hs1.
  apply (walk_chain _ _ _ _ [] _ _ _ _ Hw). exact I.
Qed.

(** X11: the synopsis follows the table: each of its tokens after the first
    is one of the recorded successors of the token before it. *)
Theorem synopsis_follows_transitions (max_length min_length : Z) (w : world) :
  exists synopsis r w',
    sample_walk max_length min_length w = (Return (synopsis, r), w') /\
    forall a b, adjacent a b synopsis -> In b (dd_get (bigrams (self w)) a []).
Proof.
  destruct (sample_walk_chain max_length min_length w)
    as (synopsis & r & w' & Hw & Hc).
  exists synopsis, r, w'. split; [exact Hw|].
  intros a b Hab. exact (chain_adjacent _ a b synopsis Hc Hab).
Qed.

(** X12: on a generator trained once, two tokens that stand side by side in
    the synopsis stand side by side, in this order, in the training text. *)
Theorem synopsis_pairs_come_from_text
    (text : string) (stream : nat -> nat) (max_length min_length : Z) :
  exists synopsis r w',
    sample_walk max_length min_length
      (mkWorld (load_training_data text init) stream) =
      (Return (synopsis, r), w') /\
    forall a b,
      adjacent a b synopsis -> adjacent a b (_tokenize_text text).
Proof.
  destruct (sample_walk_chain max_length min_length
              (mkWorld (load_training_data text init) stream))
    as (synopsis & r & w' & Hw & Hc).
  exists synopsis, r, w'. split; [exact Hw|].
  intros a b Hab. apply followers_adjacent.
  pose proof (chain_adjacent _ a b synopsis Hc Hab) as Hin.
  cbn [self] in Hin. unfold load_training_data in Hin.
  rewrite train_words_get in Hin. exact Hin.
Qed.

(** X13: with [max_length <= 1], zero and negative values included, the
    walk returns the start word alone. *)
Theorem short_max_length_gives_start_word
    (max_length min_length : Z) (w : world) :
  (max_length <= 1)%Z ->
  exists start r w',
    sample_walk max_length min_length w = (Return ([start], r), w').
Proof.
  intros Hmax.
  destruct (sample_walk_spec max_length min_length w)
    as (start & ext & r & w' & Hw & _ & _ & Hlen & _).
  replace (Z.to_nat (max_length - 1)) with 0 in Hlen by lia.
  destruct ext; [|simpl in Hlen; lia].
  exists start, r, w'. exact Hw.
Qed.

Lemma short_max_length_gives_start_word_witness :
  (0 <= 1)%Z /\
  exists start r w',
    sample_walk 0 20
      (mkWorld (load_training_data "The cat sat. The dog ran." init)
               (fun n => n)) = (Return ([start], r), w').
Proof.
  split; [lia|]. apply short_max_length_gives_start_word. lia.
Defined.

(** X14: for [max_length >= 1], a walk that ends because the loop ran out,
    on no dead end and no sentence end, has exactly [max_length] tokens. *)
Theorem exhausted_walk_is_full (max_length min_length : Z) (w : world) :
  (1 <= max_length)%Z ->
  exists synopsis r w',
    sample_walk max_length min_length w = (Return (synopsis, r), w') /\
    (r = Exhausted -> Z.of_nat (List.length synopsis) = max_length).
Proof.
  intros Hmax.
  destruct (sample_walk_spec max_length min_length w)
    as (start & ext & r & w' & Hw & _ & _ & _ & Hex & _).
  exists (start :: ext), r, w'. split; [exact Hw|].
  intros Hr. specialize (Hex Hr). simpl List.length. lia.
Qed.

Lemma exhausted_walk_is_full_witness :
  (1 <= 3)%Z /\
  exists synopsis r w',
    sample_walk 3 20
      (mkWorld (load_training_data "The cat sat. The dog ran." init)
               (fun n => n)) = (Return (synopsis, r), w') /\
    (r = Exhausted -> Z.of_nat (List.length synopsis) = 3%Z).
Proof.
  split; [lia|]. apply exhausted_walk_is_full. lia.
Defined.

Lemma choose_starting_word_pool w :
  sentence_starters (self w) <> [] ->
  exists x w',
    _choose_starting_word w = (Return x, w') /\ self w' = self w /\
    In x (sentence_starters (self w)).
Proof.
  intros Hne. unfold _choose_starting_word, bind, get_self.
  destruct (sentence_starters (self w)) as [|s0 ss]; [contradiction|].
  destruct (random_choice_spec (s0 :: ss) w) as (x & Hx & Hin);
    [discriminate|].
  rewrite Hx. eexists _, _. split; [reflexivity|]. auto.
Qed.

Lemma sample_walk_from_pool max_length min_length w :
  sentence_starters (self w) <> [] ->
  exists start ext r w',
    sample_walk max_length min_length w = (Return (start :: ext, r), w') /\
    self w' = self w /\
    In start (sentence_starters (self w)).
Proof.
  intros Hne. unfold sample_walk, bind.
  destruct (choose_starting_word_pool w Hne) as (start & w1 & Hc & Hs1 & Hin).
  rewrite Hc.
  destruct (walk_spec min_length (Z.to_nat (max_length - 1)) 0%Z start
                      [start] w1)
    as (ext & r & w' & Hw & Hself & _).
  exists start, ext, r, w'. rewrite Hw. split; [reflexivity|].
  split; [congruence | exact Hin].
Qed.

(** X15: when the starter pool is not empty, the first token of the synopsis
    is an entry of the pool; the keys of the table are not consulted. *)
Theorem synopsis_starts_in_pool (max_length min_length : Z) (w : world) :
  sentence_starters (self w) <> [] ->
  exists start ext r w',
    sample_walk max_length min_length w = (Return (start :: ext, r), w') /\
    In start (sentence_starters (self w)).
Proof.
  intros Hne.
  destruct (sample_walk_from_pool max_length min_length w Hne)
    as (start & ext & r & w' & Hw & _ & Hin).
  exists start, ext, r, w'. auto.
Qed.

Lemma synopsis_starts_in_pool_witness :
  sentence_starters
    (self (mkWorld (load_training_data "The cat sat. The dog ran." init)
                   (fun n => n))) <> [] /\
  exists start ext r w',
    sample_walk 10 1
      (mkWorld (load_training_data "The cat sat. The dog ran." init)
               (fun n => n)) = (Return (start :: ext, r), w') /\
    In start
       (sentence_starters
          (self (mkWorld (load_training_data "The cat sat. The dog ran."
                                             init) (fun n => n)))).
Proof.
  assert (H : sentence_starters
                (self (mkWorld (load_training_data
                                  "The cat sat. The dog ran." init)
                               (fun n => n))) <> [])
    by (vm_compute; discriminate).
  split; [exact H | exact (synopsis_starts_in_pool 10 1 _ H)].
Defined.

(** ** [generate_synopsis] and [generate_multiple_synopses] *)

Lemma generate_synopsis_unfold max_length min_length w :
  generate_synopsis max_length min_length w =
  match bigrams (self w) with
  | [] => (Return no_training_data, w)
  | _ :: _ =>
      match sample_walk max_length min_length w with
      | (Return r, w') =>
          (Return (_post_process_text (String.concat " " (fst r))), w')
      | (Raise e, w') => (Raise e, w')
      end
  end.
Proof.
  unfold generate_synopsis, bind, get_self.
  destruct (bigrams (self w)); reflexivity.
Qed.

Lemma generate_synopsis_cases max_length min_length w :
  (bigrams (self w) = [] /\
   generate_synopsis max_length min_length w = (Return no_training_data, w))
  \/
  (bigrams (self w) <> [] /\
   exists start ext r w',
     sample_walk max_length min_length w = (Return (start :: ext, r), w') /\
     self w' = self w /\
     (In start (sentence_starters (self w)) \/
      In start (keys (bigrams (self w))) \/ start = "The") /\
     generate_synopsis max_length min_length w =
       (Return (_post_process_text (String.concat " " (start :: ext))), w')).
Proof.
  destruct (sample_walk_spec max_length min_length w)
    as (start & ext & r & w' & Hw & Hself & Hin & _).
  rewrite generate_synopsis_unfold.
  destruct (bigrams (self w)) as [|b0 bs].
  - left. auto.
  - right. split; [discriminate|].
    exists start, ext, r, w'. rewrite Hw.
    split; [reflexivity|]. split; [exact Hself|]. split; [exact Hin|].
    reflexivity.
Qed.

(** X16: [generate_synopsis] never raises and never changes the model, on
    every model and for all lengths, zero and negative ones included. *)
Theorem generate_synopsis_never_raises
    (max_length min_length : Z) (w : world) :
  exists text w',
    generate_synopsis max_length min_length w = (Return text, w') /\
    self w' = self w.
Proof.
  destruct (generate_synopsis_cases max_length min_length w)
    as [[_ H]|[_ (start & ext & r & w' & _ & Hself & _ & H)]];
    rewrite H; eexists _, _; split; try reflexivity. exact Hself.
Qed.

Lemma islower_upper c : islower (upper c) = false.
Proof. destruct c as [[] [] [] [] [] [] [] []]; reflexivity. Qed.


Lemma post_process_text_head_not_lower s :
  head_is islower (_post_process_text s) = false.
Proof.
  unfold _post_process_text. cbv zeta.
  destruct (re_sub match_ender_upper
              (re_sub match_space_punct (ensure_sentence_end s)))
    as [|c rest]; [reflexivity|].
  rewrite capitalize_first_cons. apply islower_upper.
Qed.

(** X17: the text [generate_synopsis] returns never begins with a
    lower-case letter. *)
Theorem synopsis_never_begins_lower
    (max_length min_length : Z) (w : world) :
  exists text w',
    generate_synopsis max_length min_length w = (Return text, w') /\
    head_is islower text = false.
Proof.
  destruct (generate_synopsis_cases max_length min_length w)
    as [[_ H]|[_ (start & ext & r & w' & _ & _ & _ & H)]];
    rewrite H; eexists _, _; split; try reflexivity.
  apply post_process_text_head_not_lower.
Qed.





Lemma generate_synopsis_sentence max_length min_length w :
  reachable (self w) ->
  exists text w',
    generate_synopsis max_length min_length w = (Return text, w') /\
    self w' = self w /\ ends_with_ender text = true.
Proof.
  intros Hg.
  destruct (generate_synopsis_cases max_length min_length w)
    as [[_ H]|[_ (start & ext & r & w' & _ & Hself & Hin & H)]];
    rewrite H; eexists _, _; split; try reflexivity.
  - split; reflexivity.
  - split; [exact Hself|]. apply post_process_text_normal.
    apply concat_nonempty.
    destruct (reachable_tokens_nonempty _ Hg) as [Hs Hk].
    rewrite Forall_forall in Hs, Hk.
    destruct Hin as [Hin|[Hin| ->]]; [apply Hs, Hin | apply Hk, Hin |].
    discriminate.
Qed.

Lemma generate_loop_spec max_length remaining : forall synopses w,
  reachable (self w) ->
  exists more w',
    generate_loop remaining max_length synopses w =
      (Return (synopses ++ more), w') /\
    List.length more = remaining /\
    self w' = self w /\
    Forall (fun text => ends_with_ender text = true) more.
Proof.
  induction remaining as [|remaining IH]; intros synopses w Hg.
  - exists [], w. simpl. unfold ret. rewrite app_nil_r. auto.
  - destruct (generate_synopsis_sentence max_length 20 w Hg)
      as (text & w1 & Hgen & Hself & Hend).
    destruct (IH (synopses ++ [text]) w1) as (more & w' & Hl & Hn & Hs & Hf).
    { rewrite Hself. exact Hg. }
    exists (text :: more), w'. cbn [generate_loop]. unfold bind.
    rewrite Hgen, Hl, <- app_assoc. simpl.
    repeat split; [lia | congruence | constructor; assumption].
Qed.

(** X19: on a generator a program can hold, [generate_multiple_synopses]
    returns without raising a list of [count] texts, none when [count] is
    negative, each ending in a sentence ender, and leaves the model as it
    is. *)
Theorem generate_multiple_synopses_spec (count max_length : Z) (w : world) :
  reachable (self w) ->
  exists synopses w',
    generate_multiple_synopses count max_length w = (Return synopses, w') /\
    List.length synopses = Z.to_nat count /\
    self w' = self w /\
    Forall (fun text => ends_with_ender text = true) synopses.
Proof.
  intros Hg. unfold generate_multiple_synopses.
  destruct (generate_loop_spec max_length (Z.to_nat count) [] w Hg)
    as (more & w' & Hl & Hn & Hs & Hf).
  exists more, w'. auto.
Qed.

Lemma generate_multiple_synopses_spec_witness :
  reachable (self (mkWorld (load_training_data "The cat sat. The dog ran."
                                               init) (fun n => n))) /\
  exists synopses w',
    generate_multiple_synopses 5 80
      (mkWorld (load_training_data "The cat sat. The dog ran." init)
               (fun n => n)) = (Return synopses, w') /\
    List.length synopses = Z.to_nat 5 /\
    self w' =
      self (mkWorld (load_training_data "The cat sat. The dog ran." init)
                    (fun n => n)) /\
    Forall (fun text => ends_with_ender text = true) synopses.
Proof.
  assert (H : reachable
                (self (mkWorld (load_training_data
                                  "The cat sat. The dog ran." init)
                               (fun n => n))))
    by apply reachable_load, reachable_init.
  split; [exact H | exact (generate_multiple_synopses_spec 5 80 _ H)].
Defined.

Lemma generate_loop_empty_table max_length w remaining :
  bigrams (self w) = [] -> forall synopses,
  generate_loop remaining max_length synopses w =
    (Return (synopses ++ repeat no_training_data remaining), w).
Proof.
  intros Hb. induction remaining as [|remaining IH]; intros synopses.
  - simpl. unfold ret. rewrite app_nil_r. reflexivity.
  - cbn [generate_loop]. unfold bind at 1.
    unfold generate_synopsis, bind at 1, get_self. rewrite Hb.
    unfold ret at 1. rewrite IH, <- app_assoc. reflexivity.
Qed.

(** X20: on an empty table [generate_multiple_synopses] returns [count]
    copies of the fallback text and draws nothing from the random stream. *)
Theorem generate_multiple_synopses_empty_table
    (count max_length : Z) (w : world) :
  bigrams (self w) = [] ->
  generate_multiple_synopses count max_length w =
    (Return (repeat "No training data available." (Z.to_nat count)), w).
Proof.
  intros Hb. unfold generate_multiple_synopses.
  rewrite (generate_loop_empty_table max_length w _ Hb). reflexivity.
Qed.

Lemma generate_multiple_synopses_empty_table_witness :
  bigrams (self (mkWorld init (fun n => n))) = [] /\
  generate_multiple_synopses 5 100 (mkWorld init (fun n => n)) =
    (Return (repeat "No training data available." (Z.to_nat 5)),
     mkWorld init (fun n => n)).
Proof.
  split; [reflexivity|].
  apply (generate_multiple_synopses_empty_table 5 100). reflexivity.
Defined.

(** ** The post-processor *)

(** X21: in the text [_post_process_text] returns, no white space stands
    immediately before one of the marks [. ! ? , : ;]. *)
Theorem post_process_no_space_before_punct
    (text pre : string) (c p : ascii) (rest : string) :
  _post_process_text text = (pre ++ String c (String p rest))%string ->
  isspace c = true -> is_punct p = false.
Proof.
  intros Heq Hc.
  destruct (post_process_text_normal text) as (_ & _ & Hclean & _).
  cbv zeta in Hclean. rewrite Heq in Hclean.
  apply no_space_punct_suffix in Hclean. simpl in Hclean.
  rewrite Hc in Hclean. apply andb_prop in Hclean.
  destruct Hclean as [H _]. apply negb_true_iff in H. exact H.
Qed.

Lemma post_process_no_space_before_punct_witness :
  _post_process_text "so , it ends" = ("So," ++ String " " (String "i" "t ends."))%string /\
  isspace " " = true /\ is_punct "i" = false.
Proof.
  assert (H1 : _post_process_text "so , it ends" =
               ("So," ++ String " " (String "i" "t ends."))%string)
    by (vm_compute; reflexivity).
  assert (H2 : isspace " " = true) by reflexivity.
  split; [exact H1|]. split; [exact H2|].
  exact (post_process_no_space_before_punct _ _ _ _ _ H1 H2).
Defined.

(** X22: in the text [_post_process_text] returns, a sentence ender that is
    followed, over any white space, by one of the letters A to Z is followed
    by exactly one space and then that letter. *)
Theorem post_process_one_space_after_ender
    (text pre : string) (p : ascii) (rest : string) :
  _post_process_text text = (pre ++ String p rest)%string ->
  is_ender p = true ->
  head_is isupper (lstrip rest) = true ->
  exists u tail, rest = String " " (String u tail) /\ isupper u = true.
Proof.
  intros Heq Hp Hu.
  destruct (post_process_text_normal text) as (_ & _ & _ & Hst & _).
  cbv zeta in Hst. rewrite Heq in Hst.
  apply stable_suffix in Hst. destruct Hst as [H _].
  rewrite match_ender_upper_cons, Hp, Hu in H. cbn [andb] in H.
  destruct (lstrip rest) as [|u tail]; [discriminate Hu|].
  inversion H as [Hrest]. exists u, tail. split; [reflexivity | exact Hu].
Qed.

Lemma post_process_one_space_after_ender_witness :
  _post_process_text "end.Next" = ("End" ++ String "." " Next.")%string /\
  is_ender "." = true /\
  head_is isupper (lstrip " Next.") = true /\
  exists u tail, " Next." = String " " (String u tail) /\ isupper u = true.
Proof.
  assert (H1 : _post_process_text "end.Next" =
               ("End" ++ String "." " Next.")%string)
    by (vm_compute; reflexivity).
  assert (H2 : is_ender "." = true) by reflexivity.
  assert (H3 : head_is isupper (lstrip " Next.") = true) by reflexivity.
  split; [exact H1|]. split; [exact H2|]. split; [exact H3|].
  exact (post_process_one_space_after_ender _ _ _ _ H1 H2 H3).
Defined.

(** X23: for a text that is not empty, [_post_process_text] returns a text
    that is not empty and ends in one of [. ! ?]. *)
Theorem post_process_ends_sentence (text : string) :
  text <> EmptyString ->
  _post_process_text text <> EmptyString /\
  ends_with_ender (_post_process_text text) = true.
Proof.
  intros Hne.
  destruct (post_process_text_normal text) as (_ & He & _).
  cbv zeta in He. specialize (He Hne).
  split; [apply ends_with_ender_nonempty, He | exact He].
Qed.

Lemma post_process_ends_sentence_witness :
  "the end" <> EmptyString /\
  _post_process_text "the end" <> EmptyString /\
  ends_with_ender (_post_process_text "the end") = true.
Proof.
  assert (H : "the end" <> EmptyString) by discriminate.
  split; [exact H | exact (post_process_ends_sentence _ H)].
Defined.

(** ** Reporting *)




(** ** The vocabulary of a synopsis *)

Lemma train_words_starters_In words g :
  Forall (fun s => In s words) (sentence_starters g) ->
  Forall (fun s => In s words) (sentence_starters (train_words words g)).
Proof.
  intros Hg.
  assert (H : Forall (fun s => In s words)
                (sentence_starters
                   (fold_left (train_step words)
                              (seq 0 (List.length words - 1)) g))).
  { apply (fold_left_invariant
             (fun g => Forall (fun s => In s words) (sentence_starters g))
             (fun i => i < List.length words)).
    - intros a i Ha Hi. rewrite starters_train_step.
      apply Forall_app. split; [exact Ha|].
      destruct (_ && _); constructor; [|constructor].
      apply nth_In, Hi.
    - apply Forall_forall. intros i Hi. apply in_seq in Hi. lia.
    - exact Hg. }
  unfold train_words. revert H.
  generalize (fold_left (train_step words) (seq 0 (List.length words - 1)) g).
  intros g1 H. destruct words as [|w0 ws]; [exact H|].
  destruct (starts_upper w0); [|exact H].
  simpl. apply Forall_app. split; [exact H|].
  constructor; [left; reflexivity | constructor].
Qed.

Lemma In_removelast (l : list string) x : In x (removelast l) -> In x l.
Proof.
  induction l as [|a l IH]; [intros []|].
  simpl. destruct l as [|b l]; [intros []|].
  intros [H|H]; [left; exact H | right; exact (IH H)].
Qed.

Lemma In_tail_adjacent (start : string) ext x :
  In x ext -> exists a, adjacent a x (start :: ext).
Proof.
  intros Hin. apply in_split in Hin. destruct Hin as (l1 & l2 & ->).
  destruct (exists_last (l := start :: l1)) as (l0 & a & Hl);
    [discriminate|].
  exists a, l0, l2.
  change (start :: l1 ++ x :: l2) with ((start :: l1) ++ x :: l2).
  rewrite Hl, <- app_assoc. reflexivity.
Qed.

(** The start word, case by case as [_choose_starting_word] decides. *)
Lemma choose_starting_word_cases w :
  exists x w',
    _choose_starting_word w = (Return x, w') /\ self w' = self w /\
    (sentence_starters (self w) <> [] -> In x (sentence_starters (self w))) /\
    (sentence_starters (self w) = [] ->
     (exists k, In k (keys (bigrams (self w))) /\ starts_upper k = true) ->
     In x (keys (bigrams (self w))) /\ starts_upper x = true) /\
    (sentence_starters (self w) = [] -> bigrams (self w) <> [] ->
     In x (keys (bigrams (self w)))) /\
    (sentence_starters (self w) = [] -> bigrams (self w) = [] ->
     x = "The" /\ w' = w).
Proof.
  unfold _choose_starting_word, bind, get_self.
  destruct (sentence_starters (self w)) as [|s0 ss] eqn:Hs.
  - destruct (bigrams (self w)) as [|b0 bs] eqn:Hb.
    + exists "The", w. unfold ret.
      split; [reflexivity|]. split; [reflexivity|].
      split; [intros H; exfalso; apply H; reflexivity|].
      split; [intros _ (k & [] & _)|].
      split; [intros _ H; exfalso; apply H; reflexivity|]. auto.
    + set (cap := filter _ _).
      destruct cap as [|c0 cs] eqn:Hc.
      * destruct (random_choice_spec (keys (b0 :: bs)) w) as (x & Hx & Hin);
          [discriminate|].
        rewrite Hx. eexists _, _.
        split; [reflexivity|]. split; [reflexivity|].
        split; [intros H; exfalso; apply H; reflexivity|].
        split; [|split; [intros _ _; exact Hin | intros _ H; discriminate H]].
        intros _ (k & Hk & Hu). exfalso.
        assert (Hf : In k cap).
        { subst cap. apply filter_In. split; [exact Hk|].
          rewrite Hu. destruct k; [discriminate Hu | reflexivity]. }
        rewrite Hc in Hf. exact Hf.
      * destruct (random_choice_spec (c0 :: cs) w) as (x & Hx & Hin);
          [discriminate|].
        rewrite Hx. rewrite <- Hc in Hin. subst cap.
        apply filter_In in Hin. destruct Hin as [Hin Hu].
        apply andb_prop in Hu. destruct Hu as [_ Hu].
        eexists _, _.
        split; [reflexivity|]. split; [reflexivity|].
        split; [intros H; exfalso; apply H; reflexivity|].
        split; [intros _ _; split; [exact Hin | exact Hu]|].
        split; [intros _ _; exact Hin | intros _ H; discriminate H].
  - destruct (random_choice_spec (s0 :: ss) w) as (x & Hx & Hin);
      [discriminate|].
    rewrite Hx. eexists _, _.
    split; [reflexivity|]. split; [reflexivity|].
    split; [intros _; exact Hin|].
    split; [intros H; discriminate H|].
    split; intros H; discriminate H.
Qed.

Lemma sample_walk_start max_length min_length w start ext r w' :
  sample_walk max_length min_length w = (Return (start :: ext, r), w') ->
  exists w1, _choose_starting_word w = (Return start, w1).
Proof.
  intros Hw. unfold sample_walk, bind in Hw.
  destruct (choose_starting_word_spec w) as (x & w1 & Hc & _).
  rewrite Hc in Hw.
  destruct (walk_spec min_length (Z.to_nat (max_length - 1)) 0%Z x [x] w1)
    as (ext' & r' & w2 & Hwalk & _).
  rewrite Hwalk in Hw. inversion Hw; subst. exists w1. exact Hc.
Qed.

(** X25: how the start word is chosen.  From the starter pool when it is not
    empty; else a capitalized key when the table has one; else any key of
    the table; and the word ["The"], with nothing drawn, when pool and table
    are both empty.  The choice never raises and leaves the model alone. *)
Theorem start_word_choice (w : world) :
  exists x w',
    _choose_starting_word w = (Return x, w') /\ self w' = self w /\
    (sentence_starters (self w) <> [] -> In x (sentence_starters (self w))) /\
    (sentence_starters (self w) = [] ->
     (exists k, In k (keys (bigrams (self w))) /\ starts_upper k = true) ->
     In x (keys (bigrams (self w))) /\ starts_upper x = true) /\
    (sentence_starters (self w) = [] -> bigrams (self w) <> [] ->
     In x (keys (bigrams (self w)))) /\
    (sentence_starters (self w) = [] -> bigrams (self w) = [] ->
     x = "The" /\ w' = w).
Proof. apply choose_starting_word_cases. Qed.

(** X26: on a generator trained once and with a table that is not empty,
    every token of the synopsis is a token of the training text. *)
Theorem synopsis_tokens_come_from_text
    (text : string) (stream : nat -> nat) (max_length min_length : Z) :
  bigrams (load_training_data text init) <> [] ->
  exists synopsis r w',
    sample_walk max_length min_length
      (mkWorld (load_training_data text init) stream) =
      (Return (synopsis, r), w') /\
    Forall (fun token => In token (_tokenize_text text)) synopsis.
Proof.
  intros Hb.
  set (w := mkWorld (load_training_data text init) stream).
  destruct (sample_walk_chain max_length min_length w)
    as (synopsis & r & w' & Hw & Hc).
  exists synopsis, r, w'. split; [exact Hw|].
  destruct (sample_walk_spec max_length min_length w)
    as (start & ext & r' & w'' & Hw' & _).
  rewrite Hw in Hw'. inversion Hw'; subst synopsis r' w''.
  destruct (sample_walk_start _ _ _ _ _ _ _ Hw) as [w1 Hchoose].
  destruct (choose_starting_word_cases w)
    as (x & w2 & Hx & _ & Hpool & _ & Hkeys & _).
  rewrite Hchoose in Hx. inversion Hx; subst x w2.
  subst w. cbn [self] in *. unfold load_training_data in *.
  constructor.
  - destruct (sentence_starters (train_words (_tokenize_text text) init))
      as [|s0 ss] eqn:Hs.
    + specialize (Hkeys eq_refl Hb).
      apply train_words_keys_In in Hkeys. destruct Hkeys as [[]|Hin].
      apply In_removelast, Hin.
    + pose proof (train_words_starters_In (_tokenize_text text) init
                    (Forall_nil _)) as Hall.
      rewrite Hs in Hall. rewrite Forall_forall in Hall.
      apply Hall, Hpool. discriminate.
  - apply Forall_forall. intros x Hx'.
    destruct (In_tail_adjacent start ext x Hx') as [a Ha].
    pose proof (chain_adjacent _ a x _ Hc Ha) as Hf.
    rewrite train_words_get in Hf. simpl in Hf.
    apply followers_adjacent in Hf. destruct Hf as (l1 & l2 & Hl).
    rewrite Hl. apply in_or_app. right. right. left. reflexivity.
Qed.

Lemma synopsis_tokens_come_from_text_witness :
  bigrams (load_training_data "The cat sat. The dog ran." init) <> [] /\
  exists synopsis r w',
    sample_walk 10 1
      (mkWorld (load_training_data "The cat sat. The dog ran." init)
               (fun n => n)) = (Return (synopsis, r), w') /\
    Forall (fun token =>
              In token (_tokenize_text "The cat sat. The dog ran."))
           synopsis.
Proof.
  assert (H : bigrams (load_training_data "The cat sat. The dog ran." init)
              <> []) by (vm_compute; discriminate).
  split; [exact H|].
  exact (synopsis_tokens_come_from_text _ (fun n => n) 10 1 H).
Defined.

(** X27: a walk that stopped on a sentence end has a last token that ends in
    one of [. ! ?]. *)
Theorem natural_end_ends_sentence (max_length min_length : Z) (w : world) :
  exists synopsis r w',
    sample_walk max_length min_length w = (Return (synopsis, r), w') /\
    (r = NaturalEnd ->
     ends_with_ender (last synopsis EmptyString) = true).
Proof.
  destruct (sample_walk_spec max_length min_length w)
    as (start & ext & r & w' & Hw & _ & _ & _ & _ & Hnat & _).
  exists (start :: ext), r, w'. split; [exact Hw|].
  intros Hr. apply (Hnat Hr).
Qed.
